(** * An epoch-based software transactional memory (stm.hpp)

    A shallow embedding of the transactional runtime of stm.hpp: the
    versioned cells [ValHelper<T>], the thread-local [ThreadCtx], the global
    [Ctx] and the two drivers [Ctx::readTx] and [Ctx::writeTx].

    The calling thread is modelled as a state-and-exception monad over the
    memory it can touch.  The other threads appear as a schedule of commits
    that complete while the calling thread does not hold [mu_]. *)

From stdpp Require Import base numbers option list gmap fin_maps fin_sets.

Local Open Scope N_scope.

(** ** Data model *)

(** The address of a [ValHelper<T>].  The read set of the source stores
    [&valEpoch_] and the write set stores [this]; both are fixed offsets of
    the same object, so one address identifies the cell in both. *)
Definition addr := N.

(** [uint64_t] arithmetic wraps. *)
Definition u64 (n : N) : N := n mod 2 ^ 64.

(** [ValHelper<T>] for scalar [T]: [std::atomic<T> val_{}] and
    [std::atomic<uint64_t> valEpoch_{0}].  A scalar is kept as an integer. *)
Record ValHelper := mkVal { val_ : Z; valEpoch_ : N }.

(** [std::shared_mutex], as the calling thread owns it.  Other threads own
    it only inside their commits, which the schedule below makes atomic. *)
Inductive shared_mutex := Unlocked | LockedShared | Locked.

(** [struct Ctx]. *)
Record Ctx := mkCtx {
  readRetries_ : N;
  writeRetries_ : N;
  mu_ : shared_mutex;
  epoch_ : N
}.

(** The value of [tctx.ctx]: null, or [this] of the one [Ctx] of the model. *)
Inductive CtxPtr := nullptr | this.

(** [struct ThreadCtx]; [pendingWrites] maps a cell to the [value_] of its
    [PendingWrite<T>]. *)
Record ThreadCtx := mkThreadCtx {
  ctx : CtxPtr;
  isWrite : bool;
  epoch : N;
  pendingReads : gset N;
  pendingWrites : gmap N Z
}.

(** What the calling thread can reach: the cells, the global context, its
    thread-local [tctx], and the commits of other threads still to come.
    Every entry of [sched] is the batch of write sets that other threads
    commit before the next point at which the calling thread touches shared
    memory without holding [mu_]. *)
Record State := mkState {
  heap : gmap N ValHelper;
  global : Ctx;
  tctx : ThreadCtx;
  sched : list (list (gmap N Z))
}.

#[export] Instance CtxPtr_eq_dec : EqDecision CtxPtr.
Proof. solve_decision. Defined.
#[export] Instance shared_mutex_eq_dec : EqDecision shared_mutex.
Proof. solve_decision. Defined.

(** A cell that was never committed to is value-initialised. *)
Definition cell (h : gmap N ValHelper) (c : addr) : ValHelper :=
  default (mkVal 0 0) (h !! c).

(** The zero-initialised [thread_local ThreadCtx tctx]. *)
Definition tctx0 : ThreadCtx := mkThreadCtx nullptr false 0 ∅ ∅.

(** A freshly constructed [Ctx]. *)
Definition ctx0 : Ctx := mkCtx 0 0 Unlocked 0.

Definition state0 : State := mkState ∅ ctx0 tctx0 [].

(** Field updates. *)
Definition with_heap (h : gmap N ValHelper) (s : State) : State :=
  mkState h (global s) (tctx s) (sched s).
Definition with_global (g : Ctx) (s : State) : State :=
  mkState (heap s) g (tctx s) (sched s).
Definition with_tctx (t : ThreadCtx) (s : State) : State :=
  mkState (heap s) (global s) t (sched s).
Definition with_sched (l : list (list (gmap N Z))) (s : State) : State :=
  mkState (heap s) (global s) (tctx s) l.

Definition with_ctx (p : CtxPtr) (t : ThreadCtx) : ThreadCtx :=
  mkThreadCtx p (isWrite t) (epoch t) (pendingReads t) (pendingWrites t).
Definition with_isWrite (b : bool) (t : ThreadCtx) : ThreadCtx :=
  mkThreadCtx (ctx t) b (epoch t) (pendingReads t) (pendingWrites t).
Definition with_epoch (e : N) (t : ThreadCtx) : ThreadCtx :=
  mkThreadCtx (ctx t) (isWrite t) e (pendingReads t) (pendingWrites t).
Definition with_pendingReads (r : gset N) (t : ThreadCtx) : ThreadCtx :=
  mkThreadCtx (ctx t) (isWrite t) (epoch t) r (pendingWrites t).
Definition with_pendingWrites (w : gmap N Z) (t : ThreadCtx) : ThreadCtx :=
  mkThreadCtx (ctx t) (isWrite t) (epoch t) (pendingReads t) w.

Definition with_readRetries (n : N) (g : Ctx) : Ctx :=
  mkCtx n (writeRetries_ g) (mu_ g) (epoch_ g).
Definition with_writeRetries (n : N) (g : Ctx) : Ctx :=
  mkCtx (readRetries_ g) n (mu_ g) (epoch_ g).
Definition with_mu (m : shared_mutex) (g : Ctx) : Ctx :=
  mkCtx (readRetries_ g) (writeRetries_ g) m (epoch_ g).
Definition with_epoch_ (e : N) (g : Ctx) : Ctx :=
  mkCtx (readRetries_ g) (writeRetries_ g) (mu_ g) e.

(** ** The monad of the calling thread *)

(** A C++ exception in flight: the internal [TxFailed], or an exception of
    the user's thunk. *)
Inductive Exn := TxFailed | UserExn (e : N).

(** How a piece of code ends: it returns, it throws, an [assert] fails and
    the process aborts, or it waits for ever on a mutex it already owns. *)
Inductive Outcome (A : Type) :=
  | Returned (a : A)
  | Raised (e : Exn)
  | AssertFailed
  | Blocked.
Arguments Returned {A} a.
Arguments Raised {A} e.
Arguments AssertFailed {A}.
Arguments Blocked {A}.

Definition M (A : Type) : Type := State → Outcome A * State.

Definition ret {A} (a : A) : M A := λ s, (Returned a, s).

Definition bind {A B} (m : M A) (k : A → M B) : M B := λ s,
  match m s with
  | (Returned a, s') => k a s'
  | (Raised e, s') => (Raised e, s')
  | (AssertFailed, s') => (AssertFailed, s')
  | (Blocked, s') => (Blocked, s')
  end.

Declare Scope tx_scope.
Delimit Scope tx_scope with tx.
Notation "x ← y ; z" := (bind y (λ x, z))
  (at level 20, y at level 100, z at level 200, only parsing) : tx_scope.
Notation "y ;; z" := (bind y (λ _, z))
  (at level 100, z at level 200, only parsing, right associativity) : tx_scope.
Local Open Scope tx_scope.

Definition throw {A} (e : Exn) : M A := λ s, (Raised e, s).

(** [try { body } catch (const impl::TxFailed &) { handler }]: a user
    exception passes through. *)
Definition try_catch_TxFailed {A} (body handler : M A) : M A := λ s,
  match body s with
  | (Raised TxFailed, s') => handler s'
  | r => r
  end.

(** [assert(b)]. *)
Definition assert (b : bool) : M unit := λ s,
  if b then (Returned (), s) else (AssertFailed, s).

Definition read_tctx : M ThreadCtx := λ s, (Returned (tctx s), s).
Definition modify_tctx (f : ThreadCtx → ThreadCtx) : M unit := λ s,
  (Returned (), with_tctx (f (tctx s)) s).
Definition modify_global (f : Ctx → Ctx) : M unit := λ s,
  (Returned (), with_global (f (global s)) s).
Definition gets {A} (f : State → A) : M A := λ s, (Returned (f s), s).

(** ** Other threads *)

(** What every thread shares: the cells and the global epoch. *)
Definition shared (s : State) : gmap N ValHelper * N :=
  (heap s, epoch_ (global s)).

(** The commit section of a [writeTx] with write set [ws], seen from
    outside: under [mu_], every pending write is stamped with the next epoch
    and stored, and then that epoch is published. *)
Definition commit_shared (sh : gmap N ValHelper * N) (ws : gmap N Z)
  : gmap N ValHelper * N :=
  let e := u64 (sh.2 + 1) in
  (((λ v, mkVal v e) <$> ws) ∪ sh.1, e).

(** Another thread commits [ws]. *)
Definition foreign_commit (s : State) (ws : gmap N Z) : State :=
  let sh := commit_shared (shared s) ws in
  with_global (with_epoch_ sh.2 (global s)) (with_heap sh.1 s).

(** A point at which the calling thread touches shared memory: unless it
    holds [mu_] (in either mode, which keeps every committer out), the next
    batch of foreign commits has completed by now.  Every foreign commit is
    taken whole: a state in which another thread has stored some of its
    cells but not yet the epoch is not represented. *)
Definition interfere : M unit := λ s,
  match mu_ (global s), sched s with
  | Unlocked, batch :: rest =>
      (Returned (), foldl foreign_commit (with_sched rest s) batch)
  | _, _ => (Returned (), s)
  end.

(** ** Shared-memory primitives *)

Definition load_val (c : addr) : M Z :=
  interfere ;; gets (λ s, val_ (cell (heap s) c)).

Definition load_valEpoch (c : addr) : M N :=
  interfere ;; gets (λ s, valEpoch_ (cell (heap s) c)).

Definition store_valEpoch (c : addr) (e : N) : M unit := λ s,
  (Returned (),
   with_heap (<[c := mkVal (val_ (cell (heap s) c)) e]> (heap s)) s).

Definition store_val (c : addr) (v : Z) : M unit := λ s,
  (Returned (),
   with_heap (<[c := mkVal v (valEpoch_ (cell (heap s) c))]> (heap s)) s).

Definition load_epoch_ : M N :=
  interfere ;; gets (λ s, epoch_ (global s)).

Definition store_epoch_ (e : N) : M unit := modify_global (with_epoch_ e).

(** Taking [mu_] in mode [m]: the calling thread must not own the mutex
    already. *)
Definition acquire (m : shared_mutex) : M unit := λ s,
  match mu_ (global s) with
  | Unlocked => (Returned (), with_global (with_mu m (global s)) s)
  | _ => (Blocked, s)
  end.

(** [mu_.lock()]: waits until no other thread is committing. *)
Definition lock : M unit := interfere ;; acquire Locked.

Definition unlock : M unit := modify_global (with_mu Unlocked).

Definition lock_shared : M unit := interfere ;; acquire LockedShared.

Definition unlock_shared : M unit := modify_global (with_mu Unlocked).

(** ** [impl::ValHelper<T>], exported as [stm::Val<T>] *)

Module Val.

(** [T getFromRead()]. *)
Definition getFromRead (c : addr) : M Z :=
  val ← load_val c;
  epoch' ← load_valEpoch c;
  t ← read_tctx;
  if epoch t <? epoch' then throw TxFailed else ret val.

(** [T getFromWrite()]. *)
Definition getFromWrite (c : addr) : M Z :=
  t ← read_tctx;
  match pendingWrites t !! c with
  | Some value_ => ret value_
  | None =>
      modify_tctx (λ t, with_pendingReads ({[c]} ∪ pendingReads t) t) ;;
      getFromRead c
  end.

(** [T get()]. *)
Definition get (c : addr) : M Z :=
  t ← read_tctx;
  assert (bool_decide (ctx t ≠ nullptr)) ;;
  if isWrite t then getFromWrite c else getFromRead c.

(** [std::map::emplace]: inserts only when the key is absent. *)
Definition emplace (c : addr) (v : Z) (m : gmap N Z) : gmap N Z :=
  match m !! c with
  | Some _ => m
  | None => <[c := v]> m
  end.

(** [void set(T newVal)]. *)
Definition set (c : addr) (newVal : Z) : M unit :=
  t ← read_tctx;
  assert (bool_decide (ctx t ≠ nullptr)) ;;
  assert (isWrite t) ;;
  modify_tctx (λ t, with_pendingWrites (emplace c newVal (pendingWrites t)) t).

(** [bool canCommit()]. *)
Definition canCommit (c : addr) : M bool :=
  t ← read_tctx;
  e ← load_valEpoch c;
  ret (e <=? epoch t).

(** [void commit(T val)]. *)
Definition commit (c : addr) (val : Z) : M unit :=
  t ← read_tctx;
  assert (bool_decide (ctx t ≠ nullptr)) ;;
  assert (isWrite t) ;;
  store_valEpoch c (epoch t) ;;
  store_val c val.

End Val.

(** ** [namespace impl] *)

Module impl.

(** The first loop of [canCommit], over [tctx.pendingReads]. *)
Fixpoint canCommit_reads (elems : list addr) : M bool :=
  match elems with
  | [] => ret true
  | elem :: rest =>
      e ← load_valEpoch elem;
      t ← read_tctx;
      if epoch t <? e then ret false else canCommit_reads rest
  end.

(** The second loop of [canCommit], over [tctx.pendingWrites]. *)
Fixpoint canCommit_writes (elems : list (addr * Z)) : M bool :=
  match elems with
  | [] => ret true
  | elem :: rest =>
      ok ← Val.canCommit elem.1;
      if negb ok then ret false else canCommit_writes rest
  end.

(** [inline bool canCommit()]. *)
Definition canCommit : M bool :=
  t ← read_tctx;
  ok ← canCommit_reads (elements (pendingReads t));
  if negb ok then ret false
  else canCommit_writes (map_to_list (pendingWrites t)).

Fixpoint doCommit_loop (elems : list (addr * Z)) : M unit :=
  match elems with
  | [] => ret ()
  | elem :: rest => Val.commit elem.1 elem.2 ;; doCommit_loop rest
  end.

(** [inline void doCommit()]. *)
Definition doCommit : M unit :=
  t ← read_tctx;
  doCommit_loop (map_to_list (pendingWrites t)).

End impl.

(** ** Thunks *)

(** The callable handed to a driver.  It reaches the runtime only through
    [get] and [set] on cells, may throw an exception of its own, and hands
    back what it computed. *)
Inductive Thunk (R : Type) :=
  | Done (r : R)
  | Get (c : addr) (k : Z → Thunk R)
  | Put (c : addr) (v : Z) (k : Thunk R)
  | Throw (e : N).
Arguments Done {R} r.
Arguments Get {R} c k.
Arguments Put {R} c v k.
Arguments Throw {R} e.

(** [f()]. *)
Fixpoint call {R} (f : Thunk R) : M R :=
  match f with
  | Done r => ret r
  | Get c k => v ← Val.get c; call (k v)
  | Put c v k => Val.set c v ;; call k
  | Throw e => throw (UserExn e)
  end.

(** ** [struct Ctx]: the drivers *)

(** The entry of [readTx], up to the [try]. *)
Definition readTx_enter : M unit :=
  t ← read_tctx;
  assert (bool_decide (ctx t = nullptr)) ;;
  modify_tctx (with_ctx this) ;;
  modify_tctx (with_isWrite false) ;;
  e ← load_epoch_;
  modify_tctx (with_epoch e).

(** The [catch] block of [readTx]. *)
Definition readTx_fallback {R} (f : Thunk R) : M R :=
  modify_global (λ g, with_readRetries (u64 (readRetries_ g + 1)) g) ;;
  lock_shared ;;
  e ← load_epoch_;
  modify_tctx (with_epoch e) ;;
  r ← call f;
  unlock_shared ;;
  ret r.

(** [readTx]. *)
Definition readTx {R} (f : Thunk R) : M R :=
  readTx_enter ;;
  r ← try_catch_TxFailed (call f) (readTx_fallback f);
  modify_tctx (with_ctx nullptr) ;;
  ret r.

(** The [try] block of [writeTx] with its handler: the value of
    [txSuccess], together with what the thunk computed when it is true. *)
Definition writeTx_attempt {R} (f : Thunk R) : M (option R) :=
  try_catch_TxFailed
    (e ← load_epoch_;
     modify_tctx (with_epoch e) ;;
     r ← call f;
     lock ;;
     txSuccess ← impl.canCommit;
     (if txSuccess then
        e ← load_epoch_;
        modify_tctx (with_epoch (u64 (e + 1))) ;;
        impl.doCommit ;;
        t ← read_tctx;
        store_epoch_ (epoch t)
      else ret ()) ;;
     unlock ;;
     ret (if txSuccess then Some r else None))
    (ret None).

(** The body of [if (!txSuccess)] in [writeTx], before [f()]. *)
Definition writeTx_retry_enter : M unit :=
  modify_global (λ g, with_writeRetries (u64 (writeRetries_ g + 1)) g) ;;
  lock ;;
  e ← load_epoch_;
  modify_tctx (with_epoch e).

(** The body of [if (!txSuccess)] in [writeTx], after [f()]. *)
Definition writeTx_retry_commit : M unit :=
  modify_tctx (λ t, with_epoch (u64 (epoch t + 1)) t) ;;
  impl.doCommit ;;
  t ← read_tctx;
  store_epoch_ (epoch t) ;;
  unlock.

(** The body of [if (!txSuccess)] in [writeTx]. *)
Definition writeTx_retry {R} (f : Thunk R) : M R :=
  writeTx_retry_enter ;;
  r ← call f;
  writeTx_retry_commit ;;
  ret r.

(** The end of [writeTx]. *)
Definition writeTx_cleanup : M unit :=
  modify_tctx (with_pendingReads ∅) ;;
  modify_tctx (with_pendingWrites ∅) ;;
  modify_tctx (with_ctx nullptr).

(** The entry of [writeTx], up to the [try]. *)
Definition writeTx_enter : M unit :=
  t ← read_tctx;
  assert (bool_decide (ctx t = nullptr)) ;;
  modify_tctx (with_ctx this) ;;
  modify_tctx (with_isWrite true).

(** [writeTx]. *)
Definition writeTx {R} (f : Thunk R) : M R :=
  writeTx_enter ;;
  first ← writeTx_attempt f;
  r ← match first with
      | Some r => ret r
      | None => writeTx_retry f
      end;
  writeTx_cleanup ;;
  ret r.

(** * The vocabulary of the statements *)

(** No version tag is ahead of the global epoch: no commit is in flight. *)
Definition wf_shared (sh : gmap N ValHelper * N) : Prop :=
  ∀ c, valEpoch_ (cell sh.1 c) ≤ sh.2.

(** The number of commits in a stretch of the schedule. *)
Definition commits (batches : list (list (gmap N Z))) : N :=
  N.of_nat (length (concat batches)).

(** The foreign commits of [batches], in order. *)
Definition env_run (batches : list (list (gmap N Z)))
  (sh : gmap N ValHelper * N) : gmap N ValHelper * N :=
  foldl (foldl commit_shared) sh batches.

(** The part of the shared memory that changed between [s] and [s'] is the
    work of the foreign commits consumed from the schedule. *)
Definition env_steps (s s' : State) : Prop :=
  ∃ consumed, sched s = consumed ++ sched s' ∧
              shared s' = env_run consumed (shared s).

(** Every state transition in [m] satisfies [P]. *)
Definition steps (P : State → State → Prop) {A} (m : M A) : Prop :=
  ∀ s, P s (m s).2.

(** What a point of interference can do to the state: nothing to the
    thread's own [tctx], nothing at all while the thread holds [mu_]. *)
Record env_rel (s s' : State) : Prop := EnvRel {
  er_tctx : tctx s' = tctx s;
  er_readRetries : readRetries_ (global s') = readRetries_ (global s);
  er_writeRetries : writeRetries_ (global s') = writeRetries_ (global s);
  er_mu : mu_ (global s') = mu_ (global s);
  er_env : env_steps s s';
  er_locked : mu_ (global s) ≠ Unlocked →
    shared s' = shared s ∧ sched s' = sched s
}.

(** What the code of a thunk can do to the state: it grows the two sets
    (in a write transaction only) and meets foreign commits (unless the
    thread holds [mu_]). *)
Record call_rel (s s' : State) : Prop := CallRel {
  cr_ctx : ctx (tctx s') = ctx (tctx s);
  cr_isWrite : isWrite (tctx s') = isWrite (tctx s);
  cr_epoch : epoch (tctx s') = epoch (tctx s);
  cr_reads : pendingReads (tctx s) ⊆ pendingReads (tctx s');
  cr_writes : pendingWrites (tctx s) ⊆ pendingWrites (tctx s');
  cr_read_mode : isWrite (tctx s) = false → tctx s' = tctx s;
  cr_readRetries : readRetries_ (global s') = readRetries_ (global s);
  cr_writeRetries : writeRetries_ (global s') = writeRetries_ (global s);
  cr_mu : mu_ (global s') = mu_ (global s);
  cr_env : env_steps s s';
  cr_locked : mu_ (global s) ≠ Unlocked →
    shared s' = shared s ∧ sched s' = sched s
}.

(** The validation has passed in [s]: no cell of the read set or of the
    write set carries a version tag above the start epoch. *)
Definition valid (s : State) : Prop :=
  (∀ c, c ∈ pendingReads (tctx s) →
        valEpoch_ (cell (heap s) c) ≤ epoch (tctx s)) ∧
  (∀ c v, pendingWrites (tctx s) !! c = Some v →
          valEpoch_ (cell (heap s) c) ≤ epoch (tctx s)).

(** The state after the calling thread's own commit of its write set. *)
Definition committed (s : State) : State :=
  let sh := commit_shared (shared s) (pendingWrites (tctx s)) in
  mkState sh.1 (with_epoch_ sh.2 (global s)) (with_epoch sh.2 (tctx s))
    (sched s).

(** What is left alone from the entry of a read transaction to its end:
    the two sets, the writers' retry counter, and the shared memory but for
    foreign commits. *)
Record frame_rel (s s' : State) : Prop := FrameRel {
  fr_reads : pendingReads (tctx s') = pendingReads (tctx s);
  fr_writes : pendingWrites (tctx s') = pendingWrites (tctx s);
  fr_writeRetries : writeRetries_ (global s') = writeRetries_ (global s);
  fr_env : env_steps s s'
}.

(** The same, for code that runs in read mode and stays in it. *)
Definition read_rel (s s' : State) : Prop :=
  isWrite (tctx s) = false → isWrite (tctx s') = false ∧ frame_rel s s'.

(** Whether [readTx f] takes its [catch] block from [s]. *)
Definition readTx_falls_back {R} (f : Thunk R) (s : State) : bool :=
  match readTx_enter s with
  | (Returned _, s1) =>
      match call f s1 with
      | (Raised TxFailed, _) => true
      | _ => false
      end
  | _ => false
  end.

(** What the body of a driver does to the thread's own context: [ctx] and
    [isWrite] stay, the two sets can only grow. *)
Record local_rel (s s' : State) : Prop := LocalRel {
  lr_ctx : ctx (tctx s') = ctx (tctx s);
  lr_isWrite : isWrite (tctx s') = isWrite (tctx s);
  lr_reads : pendingReads (tctx s) ⊆ pendingReads (tctx s');
  lr_writes : pendingWrites (tctx s) ⊆ pendingWrites (tctx s')
}.

(** The result of the validation loops of [canCommit]. *)
Definition validb (s : State) : bool :=
  forallb (λ c, valEpoch_ (cell (heap s) c) <=? epoch (tctx s))
    (elements (pendingReads (tctx s))) &&
  forallb (λ cv, valEpoch_ (cell (heap s) cv.1) <=? epoch (tctx s))
    (map_to_list (pendingWrites (tctx s))).

(** [mu_] taken, and given back. *)
Definition locked (s : State) : State :=
  with_global (with_mu Locked (global s)) s.
Definition unlocked (s : State) : State :=
  with_global (with_mu Unlocked (global s)) s.

(** Between [s] and [s'] the calling thread committed once, after the
    foreign commits it met. *)
Definition one_commit (s s' : State) : Prop :=
  ∃ consumed ws,
    sched s = consumed ++ sched s' ∧
    shared s' = commit_shared (env_run consumed (shared s)) ws.

(** What a driver that ends with [o] did to the shared memory. *)
Definition tx_shared {A} (o : Outcome A) (s s' : State) : Prop :=
  match o with
  | Returned _ => one_commit s s'
  | _ => env_steps s s'
  end.

(** Whether [writeTx f] takes its [if (!txSuccess)] block from [s]. *)
Definition writeTx_retries {R} (f : Thunk R) (s : State) : bool :=
  match writeTx_enter s with
  | (Returned _, s0) =>
      match writeTx_attempt f s0 with
      | (Returned None, _) => true
      | _ => false
      end
  | _ => false
  end.

(** Code that leaves the two retry counters alone. *)
Record ctr_rel (s s' : State) : Prop := CtrRel {
  ct_readRetries : readRetries_ (global s') = readRetries_ (global s);
  ct_writeRetries : writeRetries_ (global s') = writeRetries_ (global s)
}.

(** The thunk of a read transaction run on its own against the cells [h]:
    every [get] yields the value [h] holds, a [set] trips the assertion of
    [ValHelper::set]. *)
Fixpoint alone_read {R} (h : gmap N ValHelper) (f : Thunk R) : Outcome R :=
  match f with
  | Done r => Returned r
  | Get c k => alone_read h (k (val_ (cell h c)))
  | Put _ _ _ => AssertFailed
  | Throw e => Raised (UserExn e)
  end.

(** The thunk of a write transaction run on its own against the cells [h],
    from the read set [rs] and the write set [ws]: how it ends, and the two
    sets it leaves. *)
Fixpoint alone_write {R} (h : gmap N ValHelper) (f : Thunk R)
    (rs : gset N) (ws : gmap N Z) : Outcome R * (gset N * gmap N Z) :=
  match f with
  | Done r => (Returned r, (rs, ws))
  | Get c k =>
      match ws !! c with
      | Some v => alone_write h (k v) rs ws
      | None => alone_write h (k (val_ (cell h c))) ({[c]} ∪ rs) ws
      end
  | Put c v k => alone_write h k rs (Val.emplace c v ws)
  | Throw e => (Raised (UserExn e), (rs, ws))
  end.

(** The two sets of the thread. *)
Definition sets (s : State) : gset N * gmap N Z :=
  (pendingReads (tctx s), pendingWrites (tctx s)).

(** A transaction that began at epoch [E], when the cells were [h0], looks
    at [sh]: no commit is in flight, the global epoch has not gone back, and
    a cell whose version tag is still at or below [E] is as it was in
    [h0]. *)
Definition snap_shared (E : N) (h0 : gmap N ValHelper)
    (sh : gmap N ValHelper * N) : Prop :=
  wf_shared sh ∧ E ≤ sh.2 ∧
  ∀ c, valEpoch_ (cell sh.1 c) ≤ E → cell sh.1 c = cell h0 c.

(** The same for a state, with room left in the epoch counter for the
    commits still scheduled. *)
Definition snap_inv (E : N) (h0 : gmap N ValHelper) (s : State) : Prop :=
  snap_shared E h0 (shared s) ∧
  epoch_ (global s) + commits (sched s) < 2 ^ 64.

(** The lambda of the reader thread of main.cpp, on the cells [x] and [y]
    of [stmVal]: it hands back whether [x == y], the condition of its
    [assert]. *)
Definition main_reader (x y : addr) : Thunk bool :=
  Get x (λ a, Get y (λ b, Done (bool_decide (a = b)))).

(** The lambda of the writer thread of main.cpp in iteration [i]. *)
Definition main_writer (x y : addr) (i : Z) : Thunk unit :=
  Put x i (Put y i (Done ())).

(** A commit that stores the same value to [x] and to [y], or to neither,
    as every commit of [main_writer] does. *)
Definition writes_alike (x y : addr) (ws : gmap N Z) : Prop :=
  ws !! x = ws !! y.

(** * Scenarios *)

(** A reader inside a transaction that began at epoch 0, looking at a cell
    committed at epoch 0, with a foreign commit to that cell on the way. *)
Definition reader_state : State :=
  mkState {[1 := mkVal 3 0]} ctx0 (mkThreadCtx this false 0 ∅ ∅)
    [[]; [{[1 := 4%Z]}]].

(** A writer inside a transaction that began at epoch 0, with a pending
    write to cell 1 and none to cell 2. *)
Definition writer_state : State :=
  mkState {[1 := mkVal 3 0; 2 := mkVal 8 0]} ctx0
    (mkThreadCtx this true 0 ∅ {[1 := 5%Z]}) [].

(** [write_tx { c = 5; c = 7; }] on cell 1. *)
Definition set_twice_thunk : Thunk unit := Put 1 5 (Put 1 7 (Done ())).

(** [write_tx { c = 7; }] on cell 1. *)
Definition set_once_thunk : Thunk unit := Put 1 7 (Done ()).

(** [write_tx { c = 5; a = c.get(); c = 7; b = c.get(); }] on cell 1,
    handing back [(a, b)]. *)
Definition ryow_thunk : Thunk (Z * Z) :=
  Put 1 5 (Get 1 (λ a, Put 1 7 (Get 1 (λ b, Done (a, b))))).

(** A writer that holds [mu_] and is about to validate: it began at epoch
    1, read cell 1 (last committed at epoch 1) and wrote cell 2 (moved to
    epoch 2 by another thread since). *)
Definition validating_state : State :=
  mkState {[1 := mkVal 3 1; 2 := mkVal 8 2]} (mkCtx 0 0 Locked 2)
    (mkThreadCtx this true 1 {[1]} {[2 := 9%Z]}) [].

(** A thread that is in no transaction, next to two cells that another
    thread commits to, both at once, while this thread reads. *)
Definition idle_state : State :=
  mkState {[1 := mkVal 3 0; 2 := mkVal 3 0]} ctx0 tctx0
    [[]; []; [{[1 := 4%Z; 2 := 4%Z]}]].

(** [read_tx { a = x; b = y; }] on cells 1 and 2, handing back [(a, b)]. *)
Definition read_pair_thunk : Thunk (Z * Z) :=
  Get 1 (λ a, Get 2 (λ b, Done (a, b))).

(** A thread in no transaction; while its write transaction runs, another
    thread commits to cell 1 just before this one takes [mu_]. *)
Definition contended_state : State :=
  mkState {[1 := mkVal 0 0]} ctx0 tctx0 [[]; []; []; [{[1 := 10%Z]}]].

(** [write_tx { c = c + 1; }] on cell 1. *)
Definition incr_thunk : Thunk unit :=
  Get 1 (λ v, Put 1 (v + 1)%Z (Done ())).

(** [write_tx { c = 3; throw E; }] on cell 1. *)
Definition throwing_thunk : Thunk unit := Put 1 3 (Throw 9).

(** [{ a = c.get(); throw E; }] on cell 1. *)
Definition get_then_throw_thunk : Thunk unit := Get 1 (λ _, Throw 9).

(** A thread in no transaction; while its write transaction on cell 1
    runs, another thread commits to cell 2. *)
Definition bystander_state : State :=
  mkState {[1 := mkVal 0 0]} ctx0 tctx0 [[]; [{[2 := 5%Z]}]].

(** The reader thread of main.cpp in no transaction, with two commits of
    the writer thread on their way. *)
Definition main_state : State :=
  mkState {[1 := mkVal 0 0; 2 := mkVal 0 0]} ctx0 tctx0
    [[]; []; [{[1 := 1%Z; 2 := 1%Z]}]; [{[1 := 2%Z; 2 := 2%Z]}]].

(** * Properties *)

(** ** The write set: [emplace] keeps what is there *)

Lemma emplace_lookup (c c' : addr) (v : Z) (m : gmap N Z) :
  Val.emplace c v m !! c' =
  match m !! c' with
  | Some w => Some w
  | None => if decide (c = c') then Some v else None
  end.
Proof.
  unfold Val.emplace. destruct (m !! c) as [w|] eqn:Hc.
  - destruct (m !! c') as [w'|] eqn:Hc'; [done|].
    case_decide; [congruence | done].
  - rewrite lookup_insert. case_decide; subst.
    + by rewrite Hc.
    + by destruct (m !! c').
Qed.

Lemma emplace_present (c : addr) (v : Z) (m : gmap N Z) :
  is_Some (m !! c) → Val.emplace c v m = m.
Proof. intros [w Hw]. unfold Val.emplace. by rewrite Hw. Qed.

Lemma emplace_twice (c : addr) (v1 v2 : Z) (m : gmap N Z) :
  Val.emplace c v2 (Val.emplace c v1 m) = Val.emplace c v1 m.
Proof.
  apply emplace_present. rewrite emplace_lookup.
  destruct (m !! c); [eauto|]. rewrite decide_True; eauto.
Qed.

Lemma emplace_subseteq (c : addr) (v : Z) (m : gmap N Z) :
  m ⊆ Val.emplace c v m.
Proof.
  unfold Val.emplace. destruct (m !! c) eqn:Hc; [done|].
  by apply insert_subseteq.
Qed.

(** ** What a commit does to the shared memory *)

Lemma cell_commit_shared sh ws c :
  cell (commit_shared sh ws).1 c =
  match ws !! c with
  | Some v => mkVal v (u64 (sh.2 + 1))
  | None => cell sh.1 c
  end.
Proof.
  unfold cell, commit_shared. cbn.
  rewrite lookup_union, lookup_fmap.
  destruct (ws !! c), (sh.1 !! c); done.
Qed.

Lemma u64_small n : n < 2 ^ 64 → u64 n = n.
Proof. intros. unfold u64. by apply N.mod_small. Qed.

Lemma commit_shared_epoch sh ws :
  sh.2 + 1 < 2 ^ 64 → (commit_shared sh ws).2 = sh.2 + 1.
Proof. intros. cbn. by apply u64_small. Qed.

Lemma commit_shared_wf sh ws :
  sh.2 + 1 < 2 ^ 64 → wf_shared sh → wf_shared (commit_shared sh ws).
Proof.
  intros Hb Hwf c. rewrite cell_commit_shared.
  change ((commit_shared sh ws).2) with (u64 (sh.2 + 1)).
  rewrite (u64_small _ Hb). destruct (ws !! c); cbn; [lia|].
  specialize (Hwf c). lia.
Qed.

Lemma commit_shared_mono sh ws c :
  sh.2 + 1 < 2 ^ 64 → wf_shared sh →
  valEpoch_ (cell sh.1 c) ≤ valEpoch_ (cell (commit_shared sh ws).1 c).
Proof.
  intros Hb Hwf. rewrite cell_commit_shared.
  destruct (ws !! c); cbn; [|lia].
  rewrite (u64_small _ Hb). specialize (Hwf c). lia.
Qed.

Lemma batch_run_spec (batch : list (gmap N Z)) sh :
  sh.2 + N.of_nat (length batch) < 2 ^ 64 → wf_shared sh →
  let sh' := foldl commit_shared sh batch in
  sh'.2 = sh.2 + N.of_nat (length batch) ∧ wf_shared sh' ∧
  ∀ c, valEpoch_ (cell sh.1 c) ≤ valEpoch_ (cell sh'.1 c).
Proof.
  revert sh. induction batch as [|ws batch IH]; intros sh Hb Hwf; cbn.
  - split; [lia|]. split; [done|]. intros; lia.
  - cbn in Hb.
    assert (Hb1 : sh.2 + 1 < 2 ^ 64) by lia.
    destruct (IH (commit_shared sh ws)) as (He & Hwf' & Hmono).
    + rewrite (commit_shared_epoch _ _ Hb1). lia.
    + by apply commit_shared_wf.
    + rewrite (commit_shared_epoch _ _ Hb1) in He.
      split; [lia|]. split; [done|]. intros c.
      pose proof (commit_shared_mono sh ws c Hb1 Hwf).
      specialize (Hmono c). lia.
Qed.

Lemma env_run_app b1 b2 sh :
  env_run (b1 ++ b2) sh = env_run b2 (env_run b1 sh).
Proof. unfold env_run. by rewrite foldl_app. Qed.

Lemma commits_app b1 b2 : commits (b1 ++ b2) = commits b1 + commits b2.
Proof. unfold commits. rewrite concat_app, length_app. lia. Qed.

Lemma env_run_spec (batches : list (list (gmap N Z))) sh :
  sh.2 + commits batches < 2 ^ 64 → wf_shared sh →
  let sh' := env_run batches sh in
  sh'.2 = sh.2 + commits batches ∧ wf_shared sh' ∧
  ∀ c, valEpoch_ (cell sh.1 c) ≤ valEpoch_ (cell sh'.1 c).
Proof.
  revert sh. induction batches as [|b batches IH]; intros sh Hb Hwf.
  - cbn. unfold commits. cbn. split; [lia|]. split; [done|]. intros; lia.
  - change (b :: batches) with ([b] ++ batches) in *.
    rewrite commits_app in Hb. rewrite commits_app, env_run_app.
    assert (Hc : commits [b] = N.of_nat (length b)).
    { unfold commits. cbn. by rewrite app_nil_r. }
    rewrite Hc in *.
    destruct (batch_run_spec b sh) as (He & Hwf' & Hmono); [lia|done|].
    change (env_run [b] sh) with (foldl commit_shared sh b).
    destruct (IH (foldl commit_shared sh b)) as (He2 & Hwf2 & Hmono2);
      [lia|done|].
    cbn. split; [lia|]. split; [done|]. intros c.
    specialize (Hmono c). specialize (Hmono2 c). lia.
Qed.

(** ** Running code in the monad *)

Lemma env_steps_refl s : env_steps s s.
Proof. by exists []. Qed.

Lemma env_steps_same s s' :
  sched s' = sched s → shared s' = shared s → env_steps s s'.
Proof. intros Hs Hsh. exists []. by rewrite Hs, Hsh. Qed.

Lemma env_steps_trans s1 s2 s3 :
  env_steps s1 s2 → env_steps s2 s3 → env_steps s1 s3.
Proof.
  intros (b1 & Hs1 & Hsh1) (b2 & Hs2 & Hsh2). exists (b1 ++ b2). split.
  - by rewrite Hs1, Hs2, (assoc_L (++)).
  - by rewrite env_run_app, <- Hsh1.
Qed.

Section steps.
Context (P : State → State → Prop) `{!PreOrder P}.

Lemma steps_ret {A} (a : A) : steps P (ret a).
Proof. intros s. cbn. reflexivity. Qed.

Lemma steps_throw {A} e : steps P (@throw A e).
Proof. intros s. cbn. reflexivity. Qed.

Lemma steps_assert b : steps P (assert b).
Proof. intros s. unfold assert. destruct b; cbn; reflexivity. Qed.

Lemma steps_read_tctx : steps P read_tctx.
Proof. intros s. cbn. reflexivity. Qed.

Lemma steps_gets {A} (f : State → A) : steps P (gets f).
Proof. intros s. cbn. reflexivity. Qed.

Lemma steps_bind {A B} (m : M A) (k : A → M B) :
  steps P m → (∀ a, steps P (k a)) → steps P (bind m k).
Proof.
  intros Hm Hk s. unfold bind. specialize (Hm s).
  destruct (m s) as [[a|e| |] s1]; cbn in *; try done.
  etrans; [exact Hm | apply Hk].
Qed.

Lemma steps_try_catch {A} (body handler : M A) :
  steps P body → steps P handler →
  steps P (try_catch_TxFailed body handler).
Proof.
  intros Hb Hh s. unfold try_catch_TxFailed. specialize (Hb s).
  destruct (body s) as [[a|[|e]| |] s1]; cbn in *; try done.
  etrans; [exact Hb | apply Hh].
Qed.
End steps.

#[export] Instance env_rel_preorder : PreOrder env_rel.
Proof.
  split.
  - intros s. split; try done. apply env_steps_refl.
  - intros s1 s2 s3 [] []. split; try congruence.
    + by eapply env_steps_trans.
    + intros Hl. destruct (er_locked0 Hl) as [<- <-].
      apply er_locked1. congruence.
Qed.

#[export] Instance call_rel_preorder : PreOrder call_rel.
Proof.
  split.
  - intros s. split; try done. apply env_steps_refl.
  - intros s1 s2 s3 [] []. split; try congruence.
    + by etrans.
    + by etrans.
    + intros Hr. rewrite <- (cr_read_mode0 Hr).
      apply cr_read_mode1. congruence.
    + by eapply env_steps_trans.
    + intros Hl. destruct (cr_locked0 Hl) as [<- <-].
      apply cr_locked1. congruence.
Qed.

Lemma env_rel_call_rel s s' : env_rel s s' → call_rel s s'.
Proof. intros []. split; try done; by rewrite er_tctx0. Qed.

Lemma steps_env_call {A} (m : M A) : steps env_rel m → steps call_rel m.
Proof. intros H s. apply env_rel_call_rel, H. Qed.

Lemma foreign_batch_spec (batch : list (gmap N Z)) s :
  let s' := foldl foreign_commit s batch in
  tctx s' = tctx s ∧ sched s' = sched s ∧
  readRetries_ (global s') = readRetries_ (global s) ∧
  writeRetries_ (global s') = writeRetries_ (global s) ∧
  mu_ (global s') = mu_ (global s) ∧
  shared s' = foldl commit_shared (shared s) batch.
Proof.
  revert s. induction batch as [|ws batch IH]; intros s; cbn; [done|].
  destruct (IH (foreign_commit s ws)) as (-> & -> & -> & -> & -> & ->).
  done.
Qed.

Lemma interfere_returns s : (interfere s).1 = Returned ().
Proof. unfold interfere. by destruct (mu_ (global s)), (sched s). Qed.

Lemma interfere_locked s :
  mu_ (global s) ≠ Unlocked → interfere s = (Returned (), s).
Proof. unfold interfere. by destruct (mu_ (global s)). Qed.

Lemma env_rel_interfere : steps env_rel interfere.
Proof.
  intros s. unfold interfere.
  destruct (mu_ (global s)) eqn:Hmu, (sched s) as [|batch rest] eqn:Hs;
    cbn; try reflexivity.
  destruct (foreign_batch_spec batch (with_sched rest s))
    as (Ht & Hsc & Hrr & Hwr & Hm & Hsh).
  cbn in *. split; rewrite ?Ht, ?Hrr, ?Hwr, ?Hm; try done.
  exists [batch]. rewrite Hs, Hsc. split; [done|]. by rewrite Hsh.
Qed.

Create HintDb steps discriminated.
#[export] Hint Resolve steps_ret steps_throw steps_assert steps_read_tctx
  steps_gets env_rel_interfere : steps.

Ltac steps_tac :=
  repeat first
    [ match goal with |- PreOrder _ => apply _ end
    | solve [eauto with steps typeclass_instances]
    | match goal with |- steps _ (bind _ _) => apply steps_bind; [| |intros ?] end
    | match goal with |- steps _ (try_catch_TxFailed _ _) =>
        apply steps_try_catch end
    | match goal with |- steps _ (if ?b then _ else _) => destruct b end
    | match goal with |- steps _ (match ?o with _ => _ end) => destruct o end ].

Ltac steps_bind :=
  repeat match goal with
    |- steps _ (bind _ _) => apply steps_bind; [apply _| |intros ?]
  end.

Lemma env_rel_load_val c : steps env_rel (load_val c).
Proof. unfold load_val. steps_tac. Qed.

Lemma env_rel_load_valEpoch c : steps env_rel (load_valEpoch c).
Proof. unfold load_valEpoch. steps_tac. Qed.

Lemma env_rel_load_epoch_ : steps env_rel load_epoch_.
Proof. unfold load_epoch_. steps_tac. Qed.

#[export] Hint Resolve env_rel_load_val env_rel_load_valEpoch
  env_rel_load_epoch_ : steps.

Lemma env_rel_getFromRead c : steps env_rel (Val.getFromRead c).
Proof. unfold Val.getFromRead. steps_tac. Qed.

#[export] Hint Resolve env_rel_getFromRead : steps.

Lemma call_rel_add_read c s :
  isWrite (tctx s) = true →
  call_rel s (with_tctx
    (with_pendingReads ({[c]} ∪ pendingReads (tctx s)) (tctx s)) s).
Proof.
  intros Hw. split; cbn; try done.
  - set_solver.
  - congruence.
  - by apply env_steps_same.
Qed.

Lemma call_rel_getFromWrite c s :
  isWrite (tctx s) = true → call_rel s (Val.getFromWrite c s).2.
Proof.
  intros Hw. unfold Val.getFromWrite, bind, read_tctx, modify_tctx. cbn.
  destruct (pendingWrites (tctx s) !! c); cbn; [reflexivity|].
  etrans; [by apply (call_rel_add_read c)|].
  apply env_rel_call_rel, env_rel_getFromRead.
Qed.

Lemma call_rel_get c : steps call_rel (Val.get c).
Proof.
  intros s. unfold Val.get, bind, read_tctx, assert. cbn.
  destruct (bool_decide (ctx (tctx s) ≠ nullptr)); cbn; [|reflexivity].
  destruct (isWrite (tctx s)) eqn:Hw.
  - by apply call_rel_getFromWrite.
  - apply env_rel_call_rel, env_rel_getFromRead.
Qed.

Lemma call_rel_set c v : steps call_rel (Val.set c v).
Proof.
  intros s. unfold Val.set, bind, read_tctx, assert, modify_tctx. cbn.
  destruct (bool_decide (ctx (tctx s) ≠ nullptr)); cbn; [|reflexivity].
  destruct (isWrite (tctx s)) eqn:Hw; cbn; [|reflexivity].
  split; cbn; try done.
  - apply emplace_subseteq.
  - congruence.
  - by apply env_steps_same.
Qed.

#[export] Hint Resolve call_rel_get call_rel_set : steps.

Lemma call_rel_call {R} (f : Thunk R) : steps call_rel (call f).
Proof. induction f; cbn [call]; steps_tac. Qed.

#[export] Hint Resolve call_rel_call : steps.

(** ** Cells: [get] and [set] *)

Lemma interfere_spec s :
  ∃ s', interfere s = (Returned (), s') ∧ env_rel s s'.
Proof.
  pose proof (interfere_returns s) as Hr.
  pose proof (env_rel_interfere s) as Hc.
  destruct (interfere s) as [o s']. cbn in *. subst. eauto.
Qed.

Lemma load_val_spec c s :
  ∃ s', load_val c s = (Returned (val_ (cell (heap s') c)), s') ∧
        env_rel s s'.
Proof.
  destruct (interfere_spec s) as (s' & Hi & Hc). exists s'.
  unfold load_val, bind. by rewrite Hi.
Qed.

Lemma load_valEpoch_spec c s :
  ∃ s', load_valEpoch c s = (Returned (valEpoch_ (cell (heap s') c)), s') ∧
        env_rel s s'.
Proof.
  destruct (interfere_spec s) as (s' & Hi & Hc). exists s'.
  unfold load_valEpoch, bind. by rewrite Hi.
Qed.

Lemma load_epoch_spec s :
  ∃ s', load_epoch_ s = (Returned (epoch_ (global s')), s') ∧ env_rel s s'.
Proof.
  destruct (interfere_spec s) as (s' & Hi & Hc). exists s'.
  unfold load_epoch_, bind. by rewrite Hi.
Qed.

(** [getFromRead]: two loads, then the comparison with the start epoch. *)
Lemma getFromRead_spec c s :
  ∃ s1 s2,
    let val := val_ (cell (heap s1) c) in
    let e := valEpoch_ (cell (heap s2) c) in
    load_val c s = (Returned val, s1) ∧
    load_valEpoch c s1 = (Returned e, s2) ∧
    env_rel s s2 ∧
    Val.getFromRead c s =
      (if epoch (tctx s) <? e then Raised TxFailed else Returned val, s2).
Proof.
  destruct (load_val_spec c s) as (s1 & Hv & Hc1).
  destruct (load_valEpoch_spec c s1) as (s2 & He & Hc2).
  exists s1, s2. cbn. split; [exact Hv|]. split; [exact He|].
  assert (Hc : env_rel s s2) by by etrans.
  split; [done|].
  unfold Val.getFromRead, bind. rewrite Hv, He. cbn.
  rewrite (er_tctx _ _ Hc). by destruct (_ <? _).
Qed.

Lemma bind_returned {A B} (m : M A) (k : A → M B) s a s' :
  m s = (Returned a, s') → bind m k s = k a s'.
Proof. unfold bind. by intros ->. Qed.

Lemma set_spec (c : addr) (v : Z) (s : State) :
  ctx (tctx s) ≠ nullptr → isWrite (tctx s) = true →
  Val.set c v s =
  (Returned (),
   with_tctx
     (with_pendingWrites (Val.emplace c v (pendingWrites (tctx s))) (tctx s))
     s).
Proof.
  intros Hctx Hw. unfold Val.set, bind, read_tctx, assert, modify_tctx. cbn.
  by rewrite bool_decide_eq_true_2, Hw.
Qed.

Lemma get_write_spec (c : addr) (s : State) :
  ctx (tctx s) ≠ nullptr → isWrite (tctx s) = true →
  Val.get c s = Val.getFromWrite c s.
Proof.
  intros Hctx Hw. unfold Val.get, bind, read_tctx, assert. cbn.
  by rewrite bool_decide_eq_true_2, Hw.
Qed.

Lemma get_read_spec (c : addr) (s : State) :
  ctx (tctx s) ≠ nullptr → isWrite (tctx s) = false →
  Val.get c s = Val.getFromRead c s.
Proof.
  intros Hctx Hw. unfold Val.get, bind, read_tctx, assert. cbn.
  by rewrite bool_decide_eq_true_2, Hw.
Qed.

(** C6: in read mode [get] loads the cell's value and then its version
    tag; it throws [TxFailed] exactly when the loaded tag is above the start
    epoch and returns the loaded value exactly when it is not, so it ends in
    no other way. *)
Theorem get_in_read_mode (c : addr) (s : State) :
  ctx (tctx s) ≠ nullptr → isWrite (tctx s) = false →
  ∃ s1 s2,
    let val := val_ (cell (heap s1) c) in
    let e := valEpoch_ (cell (heap s2) c) in
    load_val c s = (Returned val, s1) ∧
    load_valEpoch c s1 = (Returned e, s2) ∧
    tctx s2 = tctx s ∧
    (epoch (tctx s) < e → Val.get c s = (Raised TxFailed, s2)) ∧
    (e ≤ epoch (tctx s) → Val.get c s = (Returned val, s2)).
Proof.
  intros Hctx Hw.
  destruct (getFromRead_spec c s) as (s1 & s2 & Hv & He & Hrel & Hg).
  exists s1, s2. cbv zeta. split; [exact Hv|]. split; [exact He|].
  split; [apply Hrel|].
  rewrite (get_read_spec c s Hctx Hw), Hg. split; intros Hcmp.
  - apply N.ltb_lt in Hcmp. by rewrite Hcmp.
  - apply N.ltb_ge in Hcmp. by rewrite Hcmp.
Qed.

Lemma get_in_read_mode_witness :
  (ctx (tctx reader_state) ≠ nullptr ∧ isWrite (tctx reader_state) = false) ∧
  ∃ s1 s2,
    let val := val_ (cell (heap s1) 1) in
    let e := valEpoch_ (cell (heap s2) 1) in
    load_val 1 reader_state = (Returned val, s1) ∧
    load_valEpoch 1 s1 = (Returned e, s2) ∧
    tctx s2 = tctx reader_state ∧
    (epoch (tctx reader_state) < e →
     Val.get 1 reader_state = (Raised TxFailed, s2)) ∧
    (e ≤ epoch (tctx reader_state) →
     Val.get 1 reader_state = (Returned val, s2)).
Proof.
  split; [split; [discriminate | reflexivity]|].
  apply (get_in_read_mode 1 reader_state); [discriminate | reflexivity].
Defined.

(** C8: in write mode, [get] on a cell that has a pending write returns the
    pending value and leaves the state, so also the read set, as it is; on a
    cell without one it first adds the cell's version tag to the read set
    and then is the read-mode load and check from there, [TxFailed]
    included. *)
Theorem get_in_write_mode (c : addr) (s : State) :
  ctx (tctx s) ≠ nullptr → isWrite (tctx s) = true →
  match pendingWrites (tctx s) !! c with
  | Some value_ => Val.get c s = (Returned value_, s)
  | None =>
      let s0 := with_tctx
        (with_pendingReads ({[c]} ∪ pendingReads (tctx s)) (tctx s)) s in
      Val.get c s = Val.getFromRead c s0 ∧
      tctx (Val.get c s).2 = tctx s0 ∧
      ∃ s1 s2,
        let val := val_ (cell (heap s1) c) in
        let e := valEpoch_ (cell (heap s2) c) in
        load_val c s0 = (Returned val, s1) ∧
        load_valEpoch c s1 = (Returned e, s2) ∧
        Val.get c s =
          (if epoch (tctx s) <? e then Raised TxFailed else Returned val, s2)
  end.
Proof.
  intros Hctx Hw.
  rewrite (get_write_spec c s Hctx Hw).
  unfold Val.getFromWrite, bind, read_tctx, modify_tctx. cbn.
  destruct (pendingWrites (tctx s) !! c) as [v|]; [done|].
  split; [done|].
  destruct (getFromRead_spec c
    (with_tctx (with_pendingReads ({[c]} ∪ pendingReads (tctx s)) (tctx s)) s))
    as (s1 & s2 & Hv & He & Hrel & Hg).
  rewrite Hg. split; [apply Hrel|]. by exists s1, s2.
Qed.

Lemma get_in_write_mode_witness :
  (ctx (tctx writer_state) ≠ nullptr ∧ isWrite (tctx writer_state) = true) ∧
  Val.get 1 writer_state = (Returned 5%Z, writer_state).
Proof.
  split; [split; [discriminate | reflexivity]|].
  apply (get_in_write_mode 1 writer_state); [discriminate | reflexivity].
Defined.

(** A second [set] on a cell changes nothing: [emplace] finds the key. *)
Lemma set_twice_is_first (c : addr) (v1 v2 : Z) (s : State) :
  (Val.set c v1 ;; Val.set c v2) s = Val.set c v1 s.
Proof.
  destruct (decide (ctx (tctx s) ≠ nullptr ∧ isWrite (tctx s) = true))
    as [[Hctx Hw]|Hn].
  - erewrite bind_returned by by apply set_spec.
    rewrite !set_spec by done. cbn. by rewrite emplace_twice.
  - unfold Val.set at 1 3. unfold bind, read_tctx, assert. cbn.
    destruct (bool_decide (ctx (tctx s) ≠ nullptr)) eqn:Hctx; cbn; [|done].
    destruct (isWrite (tctx s)) eqn:Hw; cbn; [|done].
    apply bool_decide_eq_true in Hctx. by destruct Hn.
Qed.

(** In a write transaction, [get] after [set(v)] returns the value that was
    pending before the [set] when there was one, and [v] only otherwise. *)
Lemma get_after_set (c : addr) (v : Z) (s : State) :
  ctx (tctx s) ≠ nullptr → isWrite (tctx s) = true →
  (Val.set c v ;; Val.get c) s =
  (Returned (default v (pendingWrites (tctx s) !! c)), (Val.set c v s).2).
Proof.
  intros Hctx Hw. rewrite (set_spec c v s Hctx Hw).
  erewrite bind_returned by by apply set_spec.
  rewrite get_write_spec by done.
  unfold Val.getFromWrite, bind, read_tctx. cbn.
  rewrite emplace_lookup.
  destruct (pendingWrites (tctx s) !! c); cbn; [done|].
  by rewrite decide_True.
Qed.

(** C1 (the code departs from the claim): [write_tx { c = 5; c = 7; }]
    commits 5, the first value, where [write_tx { c = 7; }] commits 7; a
    second [set] on a cell is dropped rather than overwriting the pending
    entry. *)
Theorem set_twice_commits_first :
  (writeTx set_twice_thunk state0).1 = Returned () ∧
  cell (heap (writeTx set_twice_thunk state0).2) 1 = mkVal 5 1 ∧
  cell (heap (writeTx set_once_thunk state0).2) 1 = mkVal 7 1.
Proof. by vm_compute. Qed.

(** C2 (the code departs from the claim): in
    [write_tx { c = 5; a = c.get(); c = 7; b = c.get(); }] the first [get]
    returns 5 and the second returns 5 again, not 7. *)
Theorem read_your_writes_second_set_lost :
  (writeTx ryow_thunk state0).1 = Returned (5, 5)%Z.
Proof. by vm_compute. Qed.

(** ** Commit validation *)

Lemma load_valEpoch_locked c s :
  mu_ (global s) ≠ Unlocked →
  load_valEpoch c s = (Returned (valEpoch_ (cell (heap s) c)), s).
Proof.
  intros Hl. unfold load_valEpoch.
  by erewrite bind_returned by by apply interfere_locked.
Qed.

Lemma load_epoch_locked s :
  mu_ (global s) ≠ Unlocked →
  load_epoch_ s = (Returned (epoch_ (global s)), s).
Proof.
  intros Hl. unfold load_epoch_.
  by erewrite bind_returned by by apply interfere_locked.
Qed.

Lemma val_canCommit_locked c s :
  mu_ (global s) ≠ Unlocked →
  Val.canCommit c s =
  (Returned (valEpoch_ (cell (heap s) c) <=? epoch (tctx s)), s).
Proof.
  intros Hl. unfold Val.canCommit, bind, read_tctx. cbn.
  by rewrite load_valEpoch_locked.
Qed.

Lemma canCommit_reads_locked (elems : list addr) s :
  mu_ (global s) ≠ Unlocked →
  impl.canCommit_reads elems s =
  (Returned
     (forallb (λ c, valEpoch_ (cell (heap s) c) <=? epoch (tctx s)) elems), s).
Proof.
  intros Hl. induction elems as [|c elems IH]; cbn; [done|].
  unfold bind. rewrite load_valEpoch_locked by done. cbn.
  rewrite N.leb_antisym.
  destruct (epoch (tctx s) <? valEpoch_ (cell (heap s) c)); cbn; [done|].
  apply IH.
Qed.

Lemma canCommit_writes_locked (elems : list (addr * Z)) s :
  mu_ (global s) ≠ Unlocked →
  impl.canCommit_writes elems s =
  (Returned
     (forallb (λ cv, valEpoch_ (cell (heap s) cv.1) <=? epoch (tctx s)) elems),
   s).
Proof.
  intros Hl. induction elems as [|[c v] elems IH]; cbn; [done|].
  unfold bind. rewrite val_canCommit_locked by done. cbn.
  destruct (valEpoch_ (cell (heap s) c) <=? epoch (tctx s)); cbn; [|done].
  apply IH.
Qed.

Lemma canCommit_locked s :
  mu_ (global s) ≠ Unlocked →
  impl.canCommit s =
  (Returned
     (forallb (λ c, valEpoch_ (cell (heap s) c) <=? epoch (tctx s))
        (elements (pendingReads (tctx s))) &&
      forallb (λ cv, valEpoch_ (cell (heap s) cv.1) <=? epoch (tctx s))
        (map_to_list (pendingWrites (tctx s)))), s).
Proof.
  intros Hl. unfold impl.canCommit, bind, read_tctx. cbn.
  rewrite canCommit_reads_locked by done.
  destruct (forallb _ (elements _)); cbn; [|done].
  by rewrite canCommit_writes_locked.
Qed.

Lemma canCommit_valid s :
  forallb (λ c, valEpoch_ (cell (heap s) c) <=? epoch (tctx s))
    (elements (pendingReads (tctx s))) &&
  forallb (λ cv, valEpoch_ (cell (heap s) cv.1) <=? epoch (tctx s))
    (map_to_list (pendingWrites (tctx s))) = true ↔ valid s.
Proof.
  rewrite andb_true_iff, !forallb_forall. unfold valid.
  split; intros [Hr Hw]; split.
  - intros c Hc. apply N.leb_le, Hr, list_elem_of_In, elem_of_elements, Hc.
  - intros c v Hc. apply N.leb_le.
    by apply (Hw (c, v)), list_elem_of_In, elem_of_map_to_list.
  - intros c Hc. apply N.leb_le, Hr, elem_of_elements, list_elem_of_In, Hc.
  - intros [c v] Hc. apply N.leb_le. cbn. apply (Hw c v).
    by apply elem_of_map_to_list, list_elem_of_In.
Qed.

(** C5: under the exclusive lock, [canCommit] returns true if and only if
    every cell of the read set and every cell of the write set has a version
    tag at or below the start epoch, and it changes nothing; the per-cell
    [canCommit] returns true if and only if the cell's version tag is at or
    below the start epoch. *)
Theorem canCommit_exact (s : State) :
  mu_ (global s) = Locked →
  (∃ ok, impl.canCommit s = (Returned ok, s) ∧
     (ok = true ↔
        (∀ c, c ∈ pendingReads (tctx s) →
              valEpoch_ (cell (heap s) c) ≤ epoch (tctx s)) ∧
        (∀ c v, pendingWrites (tctx s) !! c = Some v →
              valEpoch_ (cell (heap s) c) ≤ epoch (tctx s)))) ∧
  (∀ c, ∃ ok, Val.canCommit c s = (Returned ok, s) ∧
     (ok = true ↔ valEpoch_ (cell (heap s) c) ≤ epoch (tctx s))).
Proof.
  intros Hl. assert (Hl' : mu_ (global s) ≠ Unlocked) by by rewrite Hl.
  split.
  - eexists. split; [by apply canCommit_locked|]. apply canCommit_valid.
  - intros c. eexists. split; [by apply val_canCommit_locked|].
    apply N.leb_le.
Qed.

Lemma canCommit_exact_witness :
  mu_ (global validating_state) = Locked ∧
  (∃ ok, impl.canCommit validating_state = (Returned ok, validating_state) ∧
     (ok = true ↔
        (∀ c, c ∈ pendingReads (tctx validating_state) →
              valEpoch_ (cell (heap validating_state) c)
              ≤ epoch (tctx validating_state)) ∧
        (∀ c v, pendingWrites (tctx validating_state) !! c = Some v →
              valEpoch_ (cell (heap validating_state) c)
              ≤ epoch (tctx validating_state)))) ∧
  (∀ c, ∃ ok,
     Val.canCommit c validating_state = (Returned ok, validating_state) ∧
     (ok = true ↔
      valEpoch_ (cell (heap validating_state) c)
      ≤ epoch (tctx validating_state))).
Proof.
  split; [reflexivity|].
  apply (canCommit_exact validating_state). reflexivity.
Defined.

(** ** Publishing the write set *)

Lemma cell_insert c x (h : gmap N ValHelper) : cell (<[c := x]> h) c = x.
Proof. unfold cell. by rewrite lookup_insert_eq. Qed.

Lemma commit_spec (c : addr) (v : Z) (s : State) :
  ctx (tctx s) ≠ nullptr → isWrite (tctx s) = true →
  Val.commit c v s =
  (Returned (), with_heap (<[c := mkVal v (epoch (tctx s))]> (heap s)) s).
Proof.
  intros Hctx Hw.
  unfold Val.commit, bind, read_tctx, assert, store_valEpoch, store_val. cbn.
  rewrite bool_decide_eq_true_2, Hw by done. cbn.
  by rewrite cell_insert, insert_insert_eq.
Qed.

Lemma doCommit_loop_spec (elems : list (addr * Z)) (s : State) :
  ctx (tctx s) ≠ nullptr → isWrite (tctx s) = true →
  impl.doCommit_loop elems s =
  (Returned (),
   with_heap
     (foldl (λ h cv, <[cv.1 := mkVal cv.2 (epoch (tctx s))]> h) (heap s) elems)
     s).
Proof.
  revert s. induction elems as [|[c v] elems IH]; intros s Hctx Hw; cbn.
  - by destruct s.
  - erewrite bind_returned by by apply commit_spec.
    rewrite IH by done. done.
Qed.

Lemma foldl_insert_union {A B} (g : A → B) (l : list (N * A)) (h : gmap N B) :
  NoDup l.*1 →
  foldl (λ h cv, <[cv.1 := g cv.2]> h) h l =
  (g <$> (list_to_map l : gmap N A)) ∪ h.
Proof.
  revert h. induction l as [|[c v] l IH]; intros h Hnd; cbn.
  - by rewrite fmap_empty, (left_id_L ∅ (∪)).
  - apply NoDup_cons in Hnd as [Hc Hnd]. rewrite IH by done.
    rewrite fmap_insert, <- insert_union_l. symmetry.
    apply insert_union_r. rewrite lookup_fmap.
    by rewrite (not_elem_of_list_to_map_1 _ _ Hc).
Qed.

(** [doCommit] stamps and stores exactly the write set. *)
Lemma doCommit_spec (s : State) :
  ctx (tctx s) ≠ nullptr → isWrite (tctx s) = true →
  impl.doCommit s =
  (Returned (),
   with_heap
     (((λ v, mkVal v (epoch (tctx s))) <$> pendingWrites (tctx s)) ∪ heap s)
     s).
Proof.
  intros Hctx Hw. unfold impl.doCommit, bind, read_tctx. cbn.
  rewrite doCommit_loop_spec by done.
  rewrite (foldl_insert_union (λ v, mkVal v (epoch (tctx s))))
    by apply NoDup_fst_map_to_list.
  by rewrite list_to_map_to_list.
Qed.

(** The commit section of the first attempt is one commit. *)
Lemma attempt_commit_spec (s : State) :
  mu_ (global s) ≠ Unlocked →
  ctx (tctx s) ≠ nullptr → isWrite (tctx s) = true →
  (e ← load_epoch_;
   modify_tctx (with_epoch (u64 (e + 1))) ;;
   impl.doCommit ;;
   t ← read_tctx;
   store_epoch_ (epoch t)) s = (Returned (), committed s).
Proof.
  intros Hl Hctx Hw.
  erewrite bind_returned by by apply load_epoch_locked.
  unfold modify_tctx at 1. unfold bind at 1.
  erewrite bind_returned by by apply doCommit_spec.
  done.
Qed.

(** The commit section of the retry is one commit, when the start epoch is
    still the global epoch. *)
Lemma retry_commit_spec (s : State) :
  ctx (tctx s) ≠ nullptr → isWrite (tctx s) = true →
  epoch (tctx s) = epoch_ (global s) →
  writeTx_retry_commit s =
  (Returned (), with_global (with_mu Unlocked (global (committed s)))
                  (committed s)).
Proof.
  intros Hctx Hw He. unfold writeTx_retry_commit.
  unfold modify_tctx at 1. unfold bind at 1.
  erewrite bind_returned by by apply doCommit_spec.
  unfold committed, commit_shared, shared. cbn. by rewrite He.
Qed.

(** ** The read driver *)

Lemma bind_unfold {A B} (m : M A) (k : A → M B) s :
  bind m k s =
  match m s with
  | (Returned a, s') => k a s'
  | (Raised e, s') => (Raised e, s')
  | (AssertFailed, s') => (AssertFailed, s')
  | (Blocked, s') => (Blocked, s')
  end.
Proof. done. Qed.

Lemma acquire_spec m s :
  acquire m s =
  if decide (mu_ (global s) = Unlocked)
  then (Returned (), with_global (with_mu m (global s)) s)
  else (Blocked, s).
Proof. unfold acquire. by destruct (mu_ (global s)). Qed.

#[export] Instance frame_rel_preorder : PreOrder frame_rel.
Proof.
  split.
  - intros s. split; try done. apply env_steps_refl.
  - intros s1 s2 s3 [] []. split; try congruence.
    by eapply env_steps_trans.
Qed.

#[export] Instance read_rel_preorder : PreOrder read_rel.
Proof.
  split.
  - intros s Hr. split; [done | reflexivity].
  - intros s1 s2 s3 H1 H2 Hr. destruct (H1 Hr) as [Hr2 Hf1].
    destruct (H2 Hr2) as [Hr3 Hf2]. split; [done | by etrans].
Qed.

Lemma call_rel_read_rel s s' : call_rel s s' → read_rel s s'.
Proof.
  intros [] Hr. rewrite (cr_read_mode0 Hr). split; [done|].
  split; try done; by rewrite (cr_read_mode0 Hr).
Qed.

Lemma steps_call_read {A} (m : M A) : steps call_rel m → steps read_rel m.
Proof. intros H s. apply call_rel_read_rel, H. Qed.

Lemma read_rel_local s s' :
  isWrite (tctx s') = isWrite (tctx s) →
  pendingReads (tctx s') = pendingReads (tctx s) →
  pendingWrites (tctx s') = pendingWrites (tctx s) →
  writeRetries_ (global s') = writeRetries_ (global s) →
  sched s' = sched s → shared s' = shared s →
  read_rel s s'.
Proof.
  intros Hw Hr Hp Hwr Hs Hsh Hm. split; [congruence|].
  split; try done. by apply env_steps_same.
Qed.

Lemma read_rel_acquire m : steps read_rel (acquire m).
Proof.
  intros s. rewrite acquire_spec. case_decide; cbn; [|reflexivity].
  by apply read_rel_local.
Qed.

Lemma read_rel_lock_shared : steps read_rel lock_shared.
Proof.
  unfold lock_shared. apply steps_bind; [apply _| |intros _].
  - apply steps_call_read, steps_env_call, env_rel_interfere.
  - apply read_rel_acquire.
Qed.

Lemma read_rel_fallback {R} (f : Thunk R) : steps read_rel (readTx_fallback f).
Proof.
  unfold readTx_fallback. steps_bind.
  - intros s. by apply read_rel_local.
  - apply read_rel_lock_shared.
  - apply steps_call_read, steps_env_call, env_rel_load_epoch_.
  - intros s. by apply read_rel_local.
  - apply steps_call_read, call_rel_call.
  - intros s. by apply read_rel_local.
  - apply steps_ret, _.
Qed.

Lemma read_rel_body {R} (f : Thunk R) :
  steps read_rel
    (r ← try_catch_TxFailed (call f) (readTx_fallback f);
     modify_tctx (with_ctx nullptr) ;; ret r).
Proof.
  steps_bind.
  - apply steps_try_catch; [apply _| |apply read_rel_fallback].
    apply steps_call_read, call_rel_call.
  - intros s. by apply read_rel_local.
  - apply steps_ret, _.
Qed.

Lemma readTx_enter_fail s :
  ctx (tctx s) ≠ nullptr → readTx_enter s = (AssertFailed, s).
Proof.
  intros Hctx. unfold readTx_enter, bind, read_tctx, assert. cbn.
  by rewrite bool_decide_eq_false_2.
Qed.

Lemma readTx_enter_spec s :
  ctx (tctx s) = nullptr →
  ∃ sa,
    env_rel (with_tctx (with_isWrite false (with_ctx this (tctx s))) s) sa ∧
    readTx_enter s =
    (Returned (), with_tctx (with_epoch (epoch_ (global sa)) (tctx sa)) sa).
Proof.
  intros Hctx.
  destruct (load_epoch_spec
    (with_tctx (with_isWrite false (with_ctx this (tctx s))) s))
    as (sa & Hload & Hrel).
  exists sa. split; [done|].
  unfold readTx_enter, bind, read_tctx, assert, modify_tctx. cbn.
  rewrite bool_decide_eq_true_2 by done. cbn.
  unfold with_tctx in *. cbn in *. by rewrite Hload.
Qed.

Lemma lock_shared_spec s :
  ∃ sa, env_rel s sa ∧
    lock_shared s =
    if decide (mu_ (global s) = Unlocked)
    then (Returned (), with_global (with_mu LockedShared (global sa)) sa)
    else (Blocked, sa).
Proof.
  destruct (interfere_spec s) as (sa & Hi & Hrel). exists sa. split; [done|].
  unfold lock_shared. rewrite bind_unfold, Hi, acquire_spec.
  by rewrite (er_mu _ _ Hrel).
Qed.

Lemma lock_spec s :
  ∃ sa, env_rel s sa ∧
    lock s =
    if decide (mu_ (global s) = Unlocked)
    then (Returned (), with_global (with_mu Locked (global sa)) sa)
    else (Blocked, sa).
Proof.
  destruct (interfere_spec s) as (sa & Hi & Hrel). exists sa. split; [done|].
  unfold lock. rewrite bind_unfold, Hi, acquire_spec.
  by rewrite (er_mu _ _ Hrel).
Qed.

(** The [catch] block of [readTx] counts one retry, and when it returns it
    has taken [mu_] from free and given it back. *)
Lemma readTx_fallback_spec {R} (f : Thunk R) s :
  readRetries_ (global (readTx_fallback f s).2)
  = u64 (readRetries_ (global s) + 1) ∧
  (∀ r, (readTx_fallback f s).1 = Returned r →
        mu_ (global s) = Unlocked ∧
        mu_ (global (readTx_fallback f s).2) = Unlocked).
Proof.
  unfold readTx_fallback. rewrite bind_unfold. cbn [modify_global].
  set (s3 := with_global _ s).
  destruct (lock_shared_spec s3) as (sa & Hrel & Hlock).
  rewrite bind_unfold, Hlock.
  assert (Hrr : readRetries_ (global sa) = u64 (readRetries_ (global s) + 1))
    by by rewrite (er_readRetries _ _ Hrel).
  case_decide as Hmu; [|by split].
  set (s4 := with_global _ sa).
  rewrite bind_unfold, load_epoch_locked by done.
  rewrite bind_unfold. cbn [modify_tctx].
  set (s5 := with_tctx _ s4).
  rewrite bind_unfold.
  pose proof (call_rel_call f s5) as Hcall.
  destruct (call f s5) as [[r|e| |] s6]; cbn in *;
    rewrite ?(cr_readRetries _ _ Hcall); (split; [done|]); try done.
Qed.

(** An exception that leaves the [catch] block of [readTx] leaves [mu_]
    held in shared mode: [unlock_shared] is skipped. *)
Lemma readTx_fallback_raised {R} (f : Thunk R) s e :
  (readTx_fallback f s).1 = Raised e →
  mu_ (global (readTx_fallback f s).2) = LockedShared.
Proof.
  unfold readTx_fallback. rewrite bind_unfold. cbn [modify_global].
  set (s3 := with_global _ s).
  destruct (lock_shared_spec s3) as (sa & Hrel & Hlock).
  rewrite bind_unfold, Hlock.
  case_decide as Hmu; [|done].
  set (s4 := with_global _ sa).
  rewrite bind_unfold, load_epoch_locked by done.
  rewrite bind_unfold. cbn [modify_tctx].
  set (s5 := with_tctx _ s4).
  rewrite bind_unfold.
  pose proof (call_rel_call f s5) as Hcall.
  destruct (call f s5) as [[r|e'| |] s6]; cbn in *; try done.
  intros _. by rewrite (cr_mu _ _ Hcall).
Qed.

Lemma readTx_keeps_frame {R} (f : Thunk R) s : frame_rel s (readTx f s).2.
Proof.
  unfold readTx. rewrite bind_unfold.
  destruct (decide (ctx (tctx s) = nullptr)) as [Hctx|Hctx].
  - destruct (readTx_enter_spec s Hctx) as (sa & Hrel & ->).
    set (s1 := with_tctx _ sa).
    assert (Hf : frame_rel s s1).
    { destruct Hrel. split; cbn; rewrite ?er_tctx0; done. }
    etrans; [exact Hf|].
    apply (read_rel_body f s1). cbn. by rewrite (er_tctx _ _ Hrel).
  - rewrite (readTx_enter_fail s Hctx). reflexivity.
Qed.

(** C10, amended: a read transaction leaves the read set and the write set
    as they were, whatever its thunk does and however it ends; what changes
    in the cells and in the global epoch between its entry and its end is
    the work of the commits of other threads and nothing else; the writers'
    retry counter is untouched; the readers' retry counter goes up by one
    exactly when the [catch] block is taken, and is untouched otherwise.
    The mutex is back as it was whenever [readTx] returns, and also when an
    exception leaves the first run of the thunk; when an exception leaves
    the second run, in the [catch] block, the mutex is left held in shared
    mode. *)
Theorem readTx_frame {R} (f : Thunk R) (s : State) :
  let s' := (readTx f s).2 in
  pendingReads (tctx s') = pendingReads (tctx s) ∧
  pendingWrites (tctx s') = pendingWrites (tctx s) ∧
  (∃ consumed,
     sched s = consumed ++ sched s' ∧
     (heap s', epoch_ (global s'))
     = env_run consumed (heap s, epoch_ (global s))) ∧
  (sched s = [] →
   heap s' = heap s ∧ epoch_ (global s') = epoch_ (global s)) ∧
  writeRetries_ (global s') = writeRetries_ (global s) ∧
  readRetries_ (global s') =
    (if readTx_falls_back f s then u64 (readRetries_ (global s) + 1)
     else readRetries_ (global s)) ∧
  (∀ r, (readTx f s).1 = Returned r → mu_ (global s') = mu_ (global s)) ∧
  (∀ e, (readTx f s).1 = Raised e →
     mu_ (global s') =
       if readTx_falls_back f s then LockedShared else mu_ (global s)).
Proof.
  cbv zeta. destruct (readTx_keeps_frame f s) as [Hr Hw Hwr Henv].
  split; [done|]. split; [done|]. split; [exact Henv|].
  split.
  { intros Hq. destruct Henv as (consumed & Hs & Hsh). rewrite Hq in Hs.
    symmetry in Hs. apply app_eq_nil in Hs as [-> _]. by inversion Hsh. }
  split; [done|].
  unfold readTx, readTx_falls_back. rewrite bind_unfold.
  destruct (decide (ctx (tctx s) = nullptr)) as [Hctx|Hctx];
    [|by rewrite (readTx_enter_fail s Hctx)].
  destruct (readTx_enter_spec s Hctx) as (sa & Hrel & ->).
  set (s1 := with_tctx _ sa).
  assert (Hrr1 : readRetries_ (global s1) = readRetries_ (global s))
    by apply Hrel.
  assert (Hmu1 : mu_ (global s1) = mu_ (global s)) by apply Hrel.
  clearbody s1.
  rewrite bind_unfold. unfold try_catch_TxFailed.
  pose proof (call_rel_call f s1) as Hcall.
  destruct (call f s1) as [[r|[|e]| |] s2]; cbn in Hcall;
    try (cbn; rewrite ?(cr_readRetries _ _ Hcall), ?(cr_mu _ _ Hcall);
         by repeat split).
  destruct (readTx_fallback_spec f s2) as [Hrr Hmu].
  pose proof (readTx_fallback_raised f s2) as Hleak.
  destruct (readTx_fallback f s2) as [[r|e| |] s3]; cbn in *;
    rewrite Hrr, (cr_readRetries _ _ Hcall), Hrr1; (split; [done|]);
    try done.
  split; [|done]. intros r' _. destruct (Hmu r eq_refl) as [Hm2 ->].
  by rewrite <- Hmu1, <- (cr_mu _ _ Hcall).
Qed.

(** The last case of C10 occurs: [read_tx { c.get(); throw E; }] meets a
    foreign commit to [c] during its first run, which ends by [TxFailed];
    the second run, under the shared lock, throws [E], and [readTx] ends
    with [mu_], free on entry, held in shared mode. *)
Lemma readTx_exception_keeps_shared_lock :
  let s := with_sched [[]; []; [{[1 := 10%Z]}]] state0 in
  readTx_falls_back get_then_throw_thunk s = true ∧
  (readTx get_then_throw_thunk s).1 = Raised (UserExn 9) ∧
  mu_ (global s) = Unlocked ∧
  ¬ (mu_ (global (readTx get_then_throw_thunk s).2) = mu_ (global s)).
Proof.
  cbv zeta. split; [by vm_compute|]. split; [by vm_compute|].
  split; [done|]. intros H. vm_compute in H. discriminate.
Qed.

(** ** The write driver *)

#[export] Instance local_rel_preorder : PreOrder local_rel.
Proof.
  split.
  - intros s. by split.
  - intros s1 s2 s3 [] []. split; try congruence; by etrans.
Qed.

Lemma call_rel_local_rel s s' : call_rel s s' → local_rel s s'.
Proof. intros []. by split. Qed.

Lemma steps_call_local {A} (m : M A) : steps call_rel m → steps local_rel m.
Proof. intros H s. apply call_rel_local_rel, H. Qed.

Lemma steps_env_local {A} (m : M A) : steps env_rel m → steps local_rel m.
Proof. intros H. by apply steps_call_local, steps_env_call. Qed.

Lemma local_rel_same s s' :
  ctx (tctx s') = ctx (tctx s) → isWrite (tctx s') = isWrite (tctx s) →
  pendingReads (tctx s') = pendingReads (tctx s) →
  pendingWrites (tctx s') = pendingWrites (tctx s) →
  local_rel s s'.
Proof. intros ? ? Hr Hw. split; try done; by rewrite ?Hr, ?Hw. Qed.

Lemma local_rel_with_epoch e : steps local_rel (modify_tctx (with_epoch e)).
Proof. intros s. by apply local_rel_same. Qed.

Lemma local_rel_bump_epoch :
  steps local_rel (modify_tctx (λ t, with_epoch (u64 (epoch t + 1)) t)).
Proof. intros s. by apply local_rel_same. Qed.

Lemma local_rel_modify_global g : steps local_rel (modify_global g).
Proof. intros s. by apply local_rel_same. Qed.

Lemma local_rel_acquire m : steps local_rel (acquire m).
Proof.
  intros s. rewrite acquire_spec. case_decide; cbn; [|reflexivity].
  by apply local_rel_same.
Qed.

Lemma local_rel_store_valEpoch c e : steps local_rel (store_valEpoch c e).
Proof. intros s. by apply local_rel_same. Qed.

Lemma local_rel_store_val c v : steps local_rel (store_val c v).
Proof. intros s. by apply local_rel_same. Qed.

#[export] Hint Resolve local_rel_with_epoch local_rel_bump_epoch
  local_rel_modify_global local_rel_acquire local_rel_store_valEpoch
  local_rel_store_val : steps.
#[export] Hint Extern 5 (steps local_rel _) =>
  apply steps_env_local; solve [eauto with steps typeclass_instances] : steps.
#[export] Hint Extern 6 (steps local_rel _) =>
  apply steps_call_local; solve [eauto with steps typeclass_instances] : steps.

Lemma local_rel_lock : steps local_rel lock.
Proof. unfold lock. steps_tac. Qed.

Lemma local_rel_lock_shared : steps local_rel lock_shared.
Proof. unfold lock_shared. steps_tac. Qed.

Lemma local_rel_unlock : steps local_rel unlock.
Proof. unfold unlock. steps_tac. Qed.

Lemma local_rel_unlock_shared : steps local_rel unlock_shared.
Proof. unfold unlock_shared. steps_tac. Qed.

Lemma local_rel_store_epoch_ e : steps local_rel (store_epoch_ e).
Proof. unfold store_epoch_. steps_tac. Qed.

#[export] Hint Resolve local_rel_lock local_rel_lock_shared local_rel_unlock
  local_rel_unlock_shared local_rel_store_epoch_ : steps.

Lemma local_rel_val_canCommit c : steps local_rel (Val.canCommit c).
Proof. unfold Val.canCommit. steps_tac. Qed.

Lemma local_rel_val_commit c v : steps local_rel (Val.commit c v).
Proof. unfold Val.commit. steps_tac. Qed.

#[export] Hint Resolve local_rel_val_canCommit local_rel_val_commit : steps.

Lemma local_rel_canCommit : steps local_rel impl.canCommit.
Proof.
  assert (Hr : ∀ l, steps local_rel (impl.canCommit_reads l)).
  { induction l; cbn [impl.canCommit_reads]; steps_tac. }
  assert (Hw : ∀ l, steps local_rel (impl.canCommit_writes l)).
  { induction l; cbn [impl.canCommit_writes]; steps_tac. }
  unfold impl.canCommit. steps_tac.
Qed.

Lemma local_rel_doCommit : steps local_rel impl.doCommit.
Proof.
  assert (Hl : ∀ l, steps local_rel (impl.doCommit_loop l)).
  { induction l; cbn [impl.doCommit_loop]; steps_tac. }
  unfold impl.doCommit. steps_tac.
Qed.

#[export] Hint Resolve local_rel_canCommit local_rel_doCommit : steps.

Lemma local_rel_attempt {R} (f : Thunk R) : steps local_rel (writeTx_attempt f).
Proof. unfold writeTx_attempt. steps_tac. Qed.

Lemma local_rel_retry {R} (f : Thunk R) : steps local_rel (writeTx_retry f).
Proof.
  unfold writeTx_retry, writeTx_retry_enter, writeTx_retry_commit. steps_tac.
Qed.

Lemma local_rel_fallback {R} (f : Thunk R) :
  steps local_rel (try_catch_TxFailed (call f) (readTx_fallback f)).
Proof. unfold readTx_fallback. steps_tac. Qed.

(** The [try] block of [writeTx], path by path. *)
Lemma writeTx_attempt_spec {R} (f : Thunk R) (s : State) :
  ctx (tctx s) ≠ nullptr → isWrite (tctx s) = true →
  ∃ sa o sf,
    env_rel s sa ∧
    call f (with_tctx (with_epoch (epoch_ (global sa)) (tctx sa)) sa)
    = (o, sf) ∧
    match o with
    | Returned r =>
        ∃ sb, env_rel sf sb ∧
          writeTx_attempt f s =
          if decide (mu_ (global sf) = Unlocked) then
            if validb (locked sb)
            then (Returned (Some r), unlocked (committed (locked sb)))
            else (Returned None, unlocked (locked sb))
          else (Blocked, sb)
    | Raised TxFailed => writeTx_attempt f s = (Returned None, sf)
    | Raised (UserExn e) => writeTx_attempt f s = (Raised (UserExn e), sf)
    | AssertFailed => writeTx_attempt f s = (AssertFailed, sf)
    | Blocked => writeTx_attempt f s = (Blocked, sf)
    end.
Proof.
  intros Hctx Hw. unfold writeTx_attempt, try_catch_TxFailed.
  destruct (load_epoch_spec s) as (sa & Hload & Ha).
  rewrite bind_unfold, Hload, bind_unfold. cbn [modify_tctx].
  set (s1 := with_tctx _ sa). rewrite bind_unfold.
  pose proof (call_rel_call f s1) as Hcall.
  destruct (call f s1) as [o sf] eqn:Ef. cbn in Hcall.
  exists sa, o, sf. split; [done|]. split; [done|].
  destruct o as [r|[|e]| |]; try done.
  destruct (lock_spec sf) as (sb & Hb & Hlock). exists sb. split; [done|].
  rewrite bind_unfold, Hlock. case_decide as Hmu; [|done].
  fold (locked sb).
  assert (Hl : mu_ (global (locked sb)) ≠ Unlocked) by done.
  assert (Hctx' : ctx (tctx (locked sb)) ≠ nullptr).
  { cbn. rewrite (er_tctx _ _ Hb), (cr_ctx _ _ Hcall). cbn.
    by rewrite (er_tctx _ _ Ha). }
  assert (Hw' : isWrite (tctx (locked sb)) = true).
  { cbn. rewrite (er_tctx _ _ Hb), (cr_isWrite _ _ Hcall). cbn.
    by rewrite (er_tctx _ _ Ha). }
  rewrite bind_unfold, canCommit_locked by done. fold (validb (locked sb)).
  destruct (validb (locked sb)); [|done].
  rewrite bind_unfold, attempt_commit_spec by done. done.
Qed.

Lemma writeTx_retry_enter_spec (s : State) :
  ∃ sa,
    env_rel
      (with_global
         (with_writeRetries (u64 (writeRetries_ (global s) + 1)) (global s))
         s) sa ∧
    writeTx_retry_enter s =
    if decide (mu_ (global s) = Unlocked)
    then (Returned (),
          with_tctx (with_epoch (epoch_ (global sa)) (tctx sa)) (locked sa))
    else (Blocked, sa).
Proof.
  unfold writeTx_retry_enter. rewrite bind_unfold. cbn [modify_global].
  set (s0 := with_global _ s).
  destruct (lock_spec s0) as (sa & Ha & Hlock). exists sa. split; [done|].
  rewrite bind_unfold, Hlock.
  change (mu_ (global s0)) with (mu_ (global s)).
  destruct (decide (mu_ (global s) = Unlocked)) as [Hmu|Hmu]; [|done].
  fold (locked sa). rewrite bind_unfold.
  by rewrite load_epoch_locked by done.
Qed.

(** The body of [if (!txSuccess)] in [writeTx], path by path. *)
Lemma writeTx_retry_spec {R} (f : Thunk R) (s : State) :
  ctx (tctx s) ≠ nullptr → isWrite (tctx s) = true →
  ∃ sa,
    env_rel
      (with_global
         (with_writeRetries (u64 (writeRetries_ (global s) + 1)) (global s))
         s) sa ∧
    if decide (mu_ (global s) = Unlocked) then
      let s2 :=
        with_tctx (with_epoch (epoch_ (global sa)) (tctx sa)) (locked sa) in
      writeTx_retry_enter s = (Returned (), s2) ∧
      ∃ o sf, call f s2 = (o, sf) ∧ call_rel s2 sf ∧
        writeTx_retry f s =
        match o with
        | Returned r => (Returned r, unlocked (committed sf))
        | _ => (o, sf)
        end
    else
      writeTx_retry_enter s = (Blocked, sa) ∧
      writeTx_retry f s = (Blocked, sa).
Proof.
  intros Hctx Hw. unfold writeTx_retry.
  destruct (writeTx_retry_enter_spec s) as (sa & Ha & Henter).
  exists sa. split; [done|].
  rewrite bind_unfold, Henter. case_decide as Hmu; [|done].
  cbv zeta. set (s2 := with_tctx _ (locked sa)).
  split; [done|].
  pose proof (call_rel_call f s2) as Hcall.
  rewrite bind_unfold.
  destruct (call f s2) as [o sf] eqn:Ef. cbn in Hcall.
  exists o, sf. split; [done|]. split; [done|].
  destruct o as [r|e| |]; try done.
  rewrite bind_unfold, retry_commit_spec; [done|..].
  - rewrite (cr_ctx _ _ Hcall). cbn. by rewrite (er_tctx _ _ Ha).
  - rewrite (cr_isWrite _ _ Hcall). cbn. by rewrite (er_tctx _ _ Ha).
  - rewrite (cr_epoch _ _ Hcall).
    destruct (cr_locked _ _ Hcall) as [Hsh _]; [done|].
    by inversion Hsh.
Qed.

Lemma one_commit_after s s1 s2 :
  env_steps s s1 → one_commit s1 s2 → one_commit s s2.
Proof.
  intros (b1 & Hs1 & Hsh1) (b2 & ws & Hs2 & Hsh2). exists (b1 ++ b2), ws.
  split.
  - by rewrite Hs1, Hs2, (assoc_L (++)).
  - by rewrite env_run_app, <- Hsh1.
Qed.

Lemma one_commit_committed s x :
  sched x = sched (committed s) → shared x = shared (committed s) →
  one_commit s x.
Proof.
  intros Hs Hsh. exists [], (pendingWrites (tctx s)). by rewrite Hs, Hsh.
Qed.

Lemma env_rel_env_steps s s' : env_rel s s' → env_steps s s'.
Proof. by intros []. Qed.

Lemma call_rel_env_steps s s' : call_rel s s' → env_steps s s'.
Proof. by intros []. Qed.

(** The first attempt: what it did to the shared memory and to [mu_]. *)
Lemma writeTx_attempt_shared {R} (f : Thunk R) (s : State) :
  ctx (tctx s) ≠ nullptr → isWrite (tctx s) = true →
  match (writeTx_attempt f s).1 with
  | Returned (Some r) =>
      one_commit s (writeTx_attempt f s).2 ∧
      mu_ (global (writeTx_attempt f s).2) = Unlocked
  | Returned None =>
      env_steps s (writeTx_attempt f s).2 ∧
      mu_ (global (writeTx_attempt f s).2) = mu_ (global s)
  | _ => env_steps s (writeTx_attempt f s).2
  end.
Proof.
  intros Hctx Hw.
  destruct (writeTx_attempt_spec f s Hctx Hw) as (sa & o & sf & Ha & Hf & Ho).
  pose proof (call_rel_call f
    (with_tctx (with_epoch (epoch_ (global sa)) (tctx sa)) sa)) as Hcall.
  rewrite Hf in Hcall. cbn in Hcall.
  assert (Hsf : env_steps s sf).
  { eapply env_steps_trans; [exact (env_rel_env_steps _ _ Ha)|].
    exact (call_rel_env_steps _ _ Hcall). }
  assert (Hmu : mu_ (global sf) = mu_ (global s)).
  { rewrite (cr_mu _ _ Hcall). cbn. apply Ha. }
  destruct o as [r|[|e]| |]; try (rewrite Ho; cbn; done).
  destruct Ho as (sb & Hb & ->).
  assert (Hsb : env_steps s sb).
  { eapply env_steps_trans; [exact Hsf|]. exact (env_rel_env_steps _ _ Hb). }
  case_decide as Hm; [|done].
  destruct (validb (locked sb)); cbn.
  - split; [|done]. eapply one_commit_after; [exact Hsb|].
    by apply one_commit_committed.
  - by rewrite <- Hmu, Hm.
Qed.

(** The retry: what it did to the shared memory. *)
Lemma writeTx_retry_shared {R} (f : Thunk R) (s : State) :
  ctx (tctx s) ≠ nullptr → isWrite (tctx s) = true →
  tx_shared (writeTx_retry f s).1 s (writeTx_retry f s).2.
Proof.
  intros Hctx Hw.
  destruct (writeTx_retry_spec f s Hctx Hw) as (sa & Ha & Hr).
  apply env_rel_env_steps in Ha.
  case_decide as Hmu; [|by destruct Hr as [_ ->]].
  destruct Hr as (_ & o & sf & Hf & Hcall & ->).
  assert (Hsf : env_steps s sf).
  { eapply env_steps_trans; [exact Ha|].
    exact (call_rel_env_steps _ _ Hcall). }
  destruct o as [r|e| |]; cbn; try done.
  eapply one_commit_after; [exact Hsf|]. by apply one_commit_committed.
Qed.

Lemma writeTx_enter_spec (s : State) :
  writeTx_enter s =
  if decide (ctx (tctx s) = nullptr)
  then (Returned (), with_tctx (with_isWrite true (with_ctx this (tctx s))) s)
  else (AssertFailed, s).
Proof.
  unfold writeTx_enter, bind, read_tctx, assert, modify_tctx. cbn.
  case_decide.
  - by rewrite bool_decide_eq_true_2.
  - by rewrite bool_decide_eq_false_2.
Qed.

(** [writeTx]: what it did to the shared memory. *)
Lemma writeTx_shared {R} (f : Thunk R) (s : State) :
  tx_shared (writeTx f s).1 s (writeTx f s).2.
Proof.
  unfold writeTx. rewrite bind_unfold, writeTx_enter_spec.
  case_decide as Hctx; [|apply env_steps_refl].
  set (s0 := with_tctx _ s).
  assert (Hctx0 : ctx (tctx s0) ≠ nullptr) by done.
  assert (Hw0 : isWrite (tctx s0) = true) by done.
  pose proof (writeTx_attempt_shared f s0 Hctx0 Hw0) as Hatt.
  pose proof (local_rel_attempt f s0) as Hloc.
  rewrite bind_unfold.
  destruct (writeTx_attempt f s0) as [[[r|]|e| |] s1]; cbn in Hatt, Hloc;
    try exact Hatt.
  - destruct Hatt as [(b & ws & Hs & Hsh) _]. cbn. by exists b, ws.
  - destruct Hatt as [Henv _].
    assert (Hctx1 : ctx (tctx s1) ≠ nullptr)
      by by rewrite (lr_ctx _ _ Hloc).
    assert (Hw1 : isWrite (tctx s1) = true)
      by by rewrite (lr_isWrite _ _ Hloc).
    pose proof (writeTx_retry_shared f s1 Hctx1 Hw1) as Hret.
    rewrite bind_unfold.
    destruct (writeTx_retry f s1) as [[r|e| |] s2]; cbn in Hret |- *;
      try (by eapply env_steps_trans).
    eapply (one_commit_after s0 s1); [done|].
    destruct Hret as (b & ws & Hs & Hsh). by exists b, ws.
Qed.

(** The two paths of [writeTx] exist: without interference the first
    attempt commits; with the foreign commit of [contended_state] the
    validation fails and the retry commits. *)
Lemma writeTx_paths :
  (writeTx_attempt incr_thunk (writeTx_enter state0).2).1
    = Returned (Some ()) ∧
  (writeTx_attempt incr_thunk (writeTx_enter contended_state).2).1
    = Returned None ∧
  (writeTx incr_thunk contended_state).1 = Returned ().
Proof. by vm_compute. Qed.

(** C7: a write transaction that returns has committed exactly once, on
    either path: the global epoch it leaves is the one it found, plus one
    for every foreign commit that went by, plus exactly one for its own; a
    write transaction that does not return leaves the epoch to the foreign
    commits alone.  So the global epoch strictly increases across a
    successful write commit, and however the transaction ends, no cell's
    version tag has decreased and none is ahead of the global epoch.  (No
    64-bit wrap-around of the epoch: the counter is assumed not to
    overflow.) *)
Theorem writeTx_epochs {R} (f : Thunk R) (s : State) :
  (∀ c, valEpoch_ (cell (heap s) c) ≤ epoch_ (global s)) →
  epoch_ (global s) + commits (sched s) + 1 < 2 ^ 64 →
  let s' := (writeTx f s).2 in
  ∃ consumed,
    sched s = consumed ++ sched s' ∧
    (∀ r, (writeTx f s).1 = Returned r →
          epoch_ (global s') = epoch_ (global s) + commits consumed + 1 ∧
          epoch_ (global s) < epoch_ (global s')) ∧
    ((∀ r, (writeTx f s).1 ≠ Returned r) →
     epoch_ (global s') = epoch_ (global s) + commits consumed) ∧
    (∀ c, valEpoch_ (cell (heap s) c) ≤ valEpoch_ (cell (heap s') c)) ∧
    (∀ c, valEpoch_ (cell (heap s') c) ≤ epoch_ (global s')).
Proof.
  intros Hwf Hb. cbv zeta.
  pose proof (writeTx_shared f s) as Hsh.
  destruct (writeTx f s) as [o s']. cbn in *.
  assert (Hrun : ∀ consumed, sched s = consumed ++ sched s' →
    let sh := env_run consumed (shared s) in
    sh.2 = epoch_ (global s) + commits consumed ∧ wf_shared sh ∧
    ∀ c, valEpoch_ (cell (heap s) c) ≤ valEpoch_ (cell sh.1 c)).
  { intros consumed Hs. apply (env_run_spec consumed (shared s)); [|done].
    cbn. rewrite Hs, commits_app in Hb. lia. }
  destruct o as [r|e| |]; cbn in Hsh.
  2-4: destruct Hsh as (consumed & Hs & Hshared);
       destruct (Hrun consumed Hs) as (He & Hwf' & Hmono);
       rewrite <- Hshared in He, Hwf', Hmono; exists consumed;
       (split; [done|]); (split; [done|]); (split; [done|]);
       (split; [done|]); exact Hwf'.
  destruct Hsh as (consumed & ws & Hs & Hshared).
  destruct (Hrun consumed Hs) as (He & Hwf' & Hmono).
  set (sh := env_run consumed (shared s)) in *.
  assert (Hb' : sh.2 + 1 < 2 ^ 64).
  { rewrite He. rewrite Hs, commits_app in Hb. lia. }
  pose proof (commit_shared_epoch sh ws Hb') as He2.
  pose proof (commit_shared_wf sh ws Hb' Hwf') as Hwf2.
  pose proof (commit_shared_mono sh ws) as Hmono2.
  rewrite <- Hshared in He2, Hwf2, Hmono2. cbn in He2, Hmono2.
  exists consumed. split; [done|]. split.
  { intros r' _. lia. }
  split.
  { intros Hn. by destruct (Hn r). }
  split; [|exact Hwf2].
  intros c. specialize (Hmono c). specialize (Hmono2 c Hb' Hwf'). lia.
Qed.

Lemma writeTx_epochs_witness :
  ((∀ c, valEpoch_ (cell (heap contended_state) c)
         ≤ epoch_ (global contended_state)) ∧
   epoch_ (global contended_state) + commits (sched contended_state) + 1
   < 2 ^ 64) ∧
  let s' := (writeTx incr_thunk contended_state).2 in
  ∃ consumed,
    sched contended_state = consumed ++ sched s' ∧
    (∀ r, (writeTx incr_thunk contended_state).1 = Returned r →
          epoch_ (global s')
          = epoch_ (global contended_state) + commits consumed + 1 ∧
          epoch_ (global contended_state) < epoch_ (global s')) ∧
    ((∀ r, (writeTx incr_thunk contended_state).1 ≠ Returned r) →
     epoch_ (global s')
     = epoch_ (global contended_state) + commits consumed) ∧
    (∀ c, valEpoch_ (cell (heap contended_state) c)
          ≤ valEpoch_ (cell (heap s') c)) ∧
    (∀ c, valEpoch_ (cell (heap s') c) ≤ epoch_ (global s')).
Proof.
  assert (Hwf : ∀ c, valEpoch_ (cell (heap contended_state) c)
                     ≤ epoch_ (global contended_state)).
  { intros c. unfold cell, contended_state. cbn.
    destruct (decide (c = 1)) as [->|Hne].
    - by rewrite lookup_singleton_eq.
    - by rewrite lookup_singleton_ne. }
  assert (Hb : epoch_ (global contended_state)
               + commits (sched contended_state) + 1 < 2 ^ 64)
    by (vm_compute; reflexivity).
  split; [by split|].
  exact (writeTx_epochs incr_thunk contended_state Hwf Hb).
Defined.

(** ** State hygiene *)

Lemma bind_returned_inv {A B} (m : M A) (k : A → M B) s b s' :
  bind m k s = (Returned b, s') →
  ∃ a s1, m s = (Returned a, s1) ∧ k a s1 = (Returned b, s').
Proof.
  rewrite bind_unfold. destruct (m s) as [[a|e| |] s1]; try done. eauto.
Qed.

Lemma bind_raised_inv {A B} (m : M A) (k : A → M B) s e s' :
  bind m k s = (Raised e, s') →
  m s = (Raised e, s') ∨
  ∃ a s1, m s = (Returned a, s1) ∧ k a s1 = (Raised e, s').
Proof.
  rewrite bind_unfold. destruct (m s) as [[a|e'| |] s1]; try done.
  - eauto.
  - intros [= -> ->]. by left.
Qed.

Lemma writeTx_cleanup_spec s :
  writeTx_cleanup s =
  (Returned (),
   with_tctx (mkThreadCtx nullptr (isWrite (tctx s)) (epoch (tctx s)) ∅ ∅) s).
Proof. done. Qed.

(** C3, as stated, fails: a user exception thrown by the thunk leaves
    [writeTx] with [ctx] still set and the write set still filled. *)
Lemma hygiene_lost_on_user_exception :
  (writeTx throwing_thunk state0).1 = Raised (UserExn 9) ∧
  ¬ (ctx (tctx (writeTx throwing_thunk state0).2) = nullptr ∧
     pendingReads (tctx (writeTx throwing_thunk state0).2) = ∅ ∧
     pendingWrites (tctx (writeTx throwing_thunk state0).2) = ∅).
Proof.
  split; [by vm_compute|]. intros [H _]. vm_compute in H. discriminate.
Qed.

(** C3, amended: when [writeTx] returns, on the first attempt or through
    the retry, [ctx] is null and both sets are empty; when [readTx] returns,
    by its first run or through the fallback, [ctx] is null and both sets
    are what they were on entry.  When an exception leaves either driver,
    nothing has been cleaned up: [ctx] is still set, and [writeTx] has
    removed nothing from the two sets. *)
Theorem tx_hygiene_on_return {R} (f : Thunk R) (s : State) :
  (∀ r s', writeTx f s = (Returned r, s') →
     ctx (tctx s') = nullptr ∧
     pendingReads (tctx s') = ∅ ∧ pendingWrites (tctx s') = ∅) ∧
  (∀ r s', readTx f s = (Returned r, s') →
     ctx (tctx s') = nullptr ∧
     pendingReads (tctx s') = pendingReads (tctx s) ∧
     pendingWrites (tctx s') = pendingWrites (tctx s)) ∧
  (∀ e s', writeTx f s = (Raised e, s') →
     ctx (tctx s') = this ∧
     pendingReads (tctx s) ⊆ pendingReads (tctx s') ∧
     pendingWrites (tctx s) ⊆ pendingWrites (tctx s')) ∧
  (∀ e s', readTx f s = (Raised e, s') → ctx (tctx s') = this).
Proof.
  split; [|split; [|split]].
  - intros r s' H. unfold writeTx in H.
    apply bind_returned_inv in H as (_ & s0 & _ & H).
    apply bind_returned_inv in H as (first & s1 & _ & H).
    apply bind_returned_inv in H as (r' & s2 & _ & H).
    apply bind_returned_inv in H as ([] & s3 & Hc & H).
    rewrite writeTx_cleanup_spec in Hc. injection Hc as <-.
    by injection H as _ <-.
  - intros r s' H.
    destruct (readTx_keeps_frame f s) as [Hr Hw _ _].
    rewrite H in Hr, Hw. cbn in Hr, Hw. split; [|done].
    unfold readTx in H.
    apply bind_returned_inv in H as (_ & s0 & _ & H).
    apply bind_returned_inv in H as (r' & s1 & _ & H).
    apply bind_returned_inv in H as ([] & s2 & Hc & H).
    injection Hc as <-. by injection H as _ <-.
  - intros e s' H. unfold writeTx in H.
    rewrite bind_unfold, writeTx_enter_spec in H.
    case_decide as Hctx; [|done].
    set (s0 := with_tctx _ s) in H.
    pose proof (local_rel_attempt f s0) as Hloc.
    apply bind_raised_inv in H as [H|(first & s1 & Ha & H)].
    + rewrite H in Hloc. cbn in Hloc. destruct Hloc. by rewrite lr_ctx0.
    + rewrite Ha in Hloc. cbn in Hloc.
      apply bind_raised_inv in H as [H|(r' & s2 & _ & H)].
      * destruct first as [r'|]; [done|].
        pose proof (local_rel_retry f s1) as Hloc2. rewrite H in Hloc2.
        cbn in Hloc2. assert (Hloc3 : local_rel s0 s') by by etrans.
        destruct Hloc3. by rewrite lr_ctx0.
      * apply bind_raised_inv in H as [H|(? & ? & _ & H)]; done.
  - intros e s' H. unfold readTx in H. rewrite bind_unfold in H.
    destruct (decide (ctx (tctx s) = nullptr)) as [Hctx|Hctx];
      [|by rewrite (readTx_enter_fail s Hctx) in H].
    destruct (readTx_enter_spec s Hctx) as (sa & Hrel & Henter).
    rewrite Henter in H. set (s1 := with_tctx _ sa) in H.
    pose proof (local_rel_fallback f s1) as Hloc.
    apply bind_raised_inv in H as [H|(r' & s2 & _ & H)].
    + rewrite H in Hloc. cbn in Hloc. rewrite (lr_ctx _ _ Hloc). cbn.
      by rewrite (er_tctx _ _ Hrel).
    + apply bind_raised_inv in H as [H|(? & ? & _ & H)]; done.
Qed.

(** ** The retry path *)

(** The retry block run from the state [s1] that a failed attempt left:
    the thunk is re-executed from the sets of [s1], and what the retry
    commits holds every entry of [s1]. *)
Lemma writeTx_retry_from_attempt {R} (f : Thunk R) (s0 s1 : State) :
  ctx (tctx s0) ≠ nullptr → isWrite (tctx s0) = true →
  mu_ (global s0) = Unlocked →
  writeTx_attempt f s0 = (Returned None, s1) →
  ∃ sa o1 sf s2 o2 s3,
    (* the failed attempt ran the thunk from the sets of [s0] *)
    call f sa = (o1, sf) ∧
    pendingReads (tctx sa) = pendingReads (tctx s0) ∧
    pendingWrites (tctx sa) = pendingWrites (tctx s0) ∧
    tctx s1 = tctx sf ∧
    (* the retry runs it again from the sets the attempt left *)
    writeTx_retry_enter s1 = (Returned (), s2) ∧
    pendingReads (tctx s2) = pendingReads (tctx s1) ∧
    pendingWrites (tctx s2) = pendingWrites (tctx s1) ∧
    call f s2 = (o2, s3) ∧
    pendingReads (tctx s1) ⊆ pendingReads (tctx s3) ∧
    pendingWrites (tctx s1) ⊆ pendingWrites (tctx s3) ∧
    ∀ r, o2 = Returned r →
      ∃ s4, writeTx_retry f s1 = (Returned r, s4) ∧
        pendingReads (tctx s4) = pendingReads (tctx s3) ∧
        pendingWrites (tctx s4) = pendingWrites (tctx s3) ∧
        (∀ c v, pendingWrites (tctx s1) !! c = Some v →
                cell (heap s4) c = mkVal v (epoch_ (global s4))) ∧
        pendingReads (tctx (writeTx_cleanup s4).2) = ∅ ∧
        pendingWrites (tctx (writeTx_cleanup s4).2) = ∅.
Proof.
  intros Hctx Hw Hmu Hatt.
  destruct (writeTx_attempt_spec f s0 Hctx Hw)
    as (sa & o1 & sf & Ha & Hf & Ho).
  pose proof (local_rel_attempt f s0) as Hloc. rewrite Hatt in Hloc.
  cbn in Hloc.
  pose proof (writeTx_attempt_shared f s0 Hctx Hw) as Hsh.
  rewrite Hatt in Hsh. cbn in Hsh. destruct Hsh as [_ Hmu1].
  assert (Ht1 : tctx s1 = tctx sf).
  { destruct o1 as [r|[|e]| |]; rewrite Hatt in Ho; try done.
    - destruct Ho as (sb & Hb & Ho). case_decide; [|done].
      destruct (validb (locked sb)); [done|]. injection Ho as ->.
      cbn. apply Hb.
    - by injection Ho as ->. }
  assert (Hctx1 : ctx (tctx s1) ≠ nullptr) by by rewrite (lr_ctx _ _ Hloc).
  assert (Hw1 : isWrite (tctx s1) = true)
    by by rewrite (lr_isWrite _ _ Hloc).
  destruct (writeTx_retry_spec f s1 Hctx1 Hw1) as (sa2 & Ha2 & Hr).
  rewrite decide_True in Hr by by rewrite Hmu1.
  destruct Hr as (Henter & o2 & s3 & Hf2 & Hcall & Hretry).
  cbv zeta in Henter, Hf2, Hcall.
  set (sa' := with_tctx (with_epoch (epoch_ (global sa)) (tctx sa)) sa) in *.
  set (s2 := with_tctx (with_epoch (epoch_ (global sa2)) (tctx sa2))
               (locked sa2)) in *.
  assert (Hta : pendingReads (tctx sa') = pendingReads (tctx s0) ∧
                pendingWrites (tctx sa') = pendingWrites (tctx s0)).
  { unfold sa'. cbn. by rewrite (er_tctx _ _ Ha). }
  assert (Ht2 : pendingReads (tctx s2) = pendingReads (tctx s1) ∧
                pendingWrites (tctx s2) = pendingWrites (tctx s1)).
  { unfold s2. cbn. by rewrite (er_tctx _ _ Ha2). }
  destruct Hta as [Hta1 Hta2]. destruct Ht2 as [Ht21 Ht22].
  assert (Hr3 : pendingReads (tctx s1) ⊆ pendingReads (tctx s3)).
  { rewrite <- Ht21. exact (cr_reads _ _ Hcall). }
  assert (Hw3 : pendingWrites (tctx s1) ⊆ pendingWrites (tctx s3)).
  { rewrite <- Ht22. exact (cr_writes _ _ Hcall). }
  exists sa', o1, sf, s2, o2, s3.
  do 10 (split; [done|]).
  intros r ->. eexists. split; [exact Hretry|]. cbn.
  split; [done|]. split; [done|]. split; [|done].
  intros c v Hc.
  change (cell (((λ v0, mkVal v0 (u64 (epoch_ (global s3) + 1)))
                   <$> pendingWrites (tctx s3)) ∪ heap s3) c)
    with (cell (commit_shared (shared s3) (pendingWrites (tctx s3))).1 c).
  rewrite cell_commit_shared.
  by rewrite (lookup_weaken _ _ _ _ Hc Hw3).
Qed.

(** C9: when the first attempt of [writeTx] fails, by [TxFailed] or by
    validation, the two sets it leaves are those the thunk had built up
    from the sets found on entry; the retry block of [writeTx] re-executes
    the thunk from a state that still holds them; they are still there
    after the re-execution and after the retry's commit, so that [writeTx]
    ends having published every entry left by the failed attempt with the
    value the failed attempt gave it; only the cleanup that follows, whose
    result is the state [writeTx] hands back, empties them. *)
Theorem retry_reuses_sets {R} (f : Thunk R) (s : State) :
  mu_ (global s) = Unlocked →
  writeTx_retries f s = true →
  let s0 := (writeTx_enter s).2 in
  let s1 := (writeTx_attempt f s0).2 in
  ∃ sa o1 sf s2 o2 s3,
    (* the failed attempt ran the thunk from the sets found on entry *)
    call f sa = (o1, sf) ∧
    pendingReads (tctx sa) = pendingReads (tctx s) ∧
    pendingWrites (tctx sa) = pendingWrites (tctx s) ∧
    tctx s1 = tctx sf ∧
    (* the retry runs it again from the sets the attempt left *)
    writeTx_retry_enter s1 = (Returned (), s2) ∧
    pendingReads (tctx s2) = pendingReads (tctx s1) ∧
    pendingWrites (tctx s2) = pendingWrites (tctx s1) ∧
    call f s2 = (o2, s3) ∧
    pendingReads (tctx s1) ⊆ pendingReads (tctx s3) ∧
    pendingWrites (tctx s1) ⊆ pendingWrites (tctx s3) ∧
    (* an exception from that second run leaves [writeTx] at once *)
    (∀ e, o2 = Raised e → writeTx f s = (Raised e, s3)) ∧
    (* otherwise [writeTx] commits what that run left, then cleans up *)
    ∀ r, o2 = Returned r →
      ∃ s4, writeTx_retry f s1 = (Returned r, s4) ∧
        pendingReads (tctx s4) = pendingReads (tctx s3) ∧
        pendingWrites (tctx s4) = pendingWrites (tctx s3) ∧
        writeTx f s = (Returned r, (writeTx_cleanup s4).2) ∧
        (∀ c v, pendingWrites (tctx s1) !! c = Some v →
                cell (heap (writeTx f s).2) c
                = mkVal v (epoch_ (global (writeTx f s).2))) ∧
        pendingReads (tctx (writeTx f s).2) = ∅ ∧
        pendingWrites (tctx (writeTx f s).2) = ∅.
Proof.
  intros Hmu Hretries. cbv zeta.
  unfold writeTx_retries in Hretries.
  rewrite writeTx_enter_spec in *.
  destruct (decide (ctx (tctx s) = nullptr)) as [Hctx|Hctx]; [|done].
  cbn [fst snd] in *.
  set (s0 := with_tctx (with_isWrite true (with_ctx this (tctx s))) s) in *.
  destruct (writeTx_attempt f s0) as [[[r0|]|e0| |] s1] eqn:Hatt;
    try done.
  cbn [snd].
  assert (Hw : writeTx f s =
               (r ← writeTx_retry f; writeTx_cleanup ;; ret r) s1).
  { unfold writeTx.
    rewrite bind_unfold, writeTx_enter_spec, decide_True by done.
    fold s0. by rewrite bind_unfold, Hatt. }
  destruct (writeTx_retry_from_attempt f s0 s1) as
    (sa & o1 & sf & s2 & o2 & s3 & H1 & H2 & H3 & H4 & H5 & H6 & H7 & H8
     & H9 & H10 & Hret); try done.
  exists sa, o1, sf, s2, o2, s3.
  do 10 (split; [done|]).
  split.
  - intros e ->. rewrite Hw, bind_unfold. unfold writeTx_retry.
    by rewrite bind_unfold, H5, bind_unfold, H8.
  - intros r ->. destruct (Hret r eq_refl)
      as (s4 & Hr4 & Hs41 & Hs42 & Hcells & He1 & He2).
    exists s4. split; [done|]. split; [done|]. split; [done|].
    assert (Hw' : writeTx f s = (Returned r, (writeTx_cleanup s4).2)).
    { rewrite Hw, bind_unfold, Hr4, bind_unfold.
      by rewrite writeTx_cleanup_spec. }
    rewrite Hw'. cbn [snd]. split; [done|].
    split; [|by split].
    intros c v Hc. rewrite writeTx_cleanup_spec. cbn. by apply Hcells.
Qed.

Lemma retry_reuses_sets_witness :
  let s := contended_state in
  let f := incr_thunk in
  let s0 := (writeTx_enter s).2 in
  let s1 := (writeTx_attempt f s0).2 in
  (mu_ (global s) = Unlocked ∧ writeTx_retries f s = true) ∧
  ∃ sa o1 sf s2 o2 s3,
    call f sa = (o1, sf) ∧
    pendingReads (tctx sa) = pendingReads (tctx s) ∧
    pendingWrites (tctx sa) = pendingWrites (tctx s) ∧
    tctx s1 = tctx sf ∧
    writeTx_retry_enter s1 = (Returned (), s2) ∧
    pendingReads (tctx s2) = pendingReads (tctx s1) ∧
    pendingWrites (tctx s2) = pendingWrites (tctx s1) ∧
    call f s2 = (o2, s3) ∧
    pendingReads (tctx s1) ⊆ pendingReads (tctx s3) ∧
    pendingWrites (tctx s1) ⊆ pendingWrites (tctx s3) ∧
    (∀ e, o2 = Raised e → writeTx f s = (Raised e, s3)) ∧
    ∀ r, o2 = Returned r →
      ∃ s4, writeTx_retry f s1 = (Returned r, s4) ∧
        pendingReads (tctx s4) = pendingReads (tctx s3) ∧
        pendingWrites (tctx s4) = pendingWrites (tctx s3) ∧
        writeTx f s = (Returned r, (writeTx_cleanup s4).2) ∧
        (∀ c v, pendingWrites (tctx s1) !! c = Some v →
                cell (heap (writeTx f s).2) c
                = mkVal v (epoch_ (global (writeTx f s).2))) ∧
        pendingReads (tctx (writeTx f s).2) = ∅ ∧
        pendingWrites (tctx (writeTx f s).2) = ∅.
Proof.
  cbv zeta.
  assert (H1 : mu_ (global contended_state) = Unlocked) by reflexivity.
  assert (H2 : writeTx_retries incr_thunk contended_state = true)
    by (vm_compute; reflexivity).
  split; [done|].
  exact (retry_reuses_sets incr_thunk contended_state H1 H2).
Defined.

(** The retry of [write_tx { c = c + 1; }] after a foreign commit of 10 to
    the cell: the re-executed [get] returns the stale pending 1, the
    re-executed [set] is dropped, and 1 is committed over the 10. *)
Lemma retry_commits_stale_write :
  (writeTx incr_thunk contended_state).1 = Returned () ∧
  cell (heap (writeTx incr_thunk contended_state).2) 1 = mkVal 1 2 ∧
  writeRetries_ (global (writeTx incr_thunk contended_state).2) = 1.
Proof. by vm_compute. Qed.


(** The fallback of [readTx] at work: a foreign commit to both cells
    arrives between the two loads of the first [get]; the first run throws
    [TxFailed], the second, under the shared lock, reads the new pair. *)
Lemma readTx_fallback_example :
  readTx_falls_back read_pair_thunk idle_state = true ∧
  (readTx read_pair_thunk idle_state).1 = Returned (4, 4)%Z ∧
  readRetries_ (global (readTx read_pair_thunk idle_state).2) = 1 ∧
  mu_ (global (readTx read_pair_thunk idle_state).2) = Unlocked.
Proof. by vm_compute. Qed.

(** * Further properties of the code *)

(** ** [doCommit] *)

Lemma cell_publish (e : N) (ws : gmap N Z) (h : gmap N ValHelper) (c : addr) :
  cell (((λ v, mkVal v e) <$> ws) ∪ h) c =
  match ws !! c with
  | Some v => mkVal v e
  | None => cell h c
  end.
Proof.
  unfold cell. rewrite lookup_union, lookup_fmap.
  destruct (ws !! c), (h !! c); done.
Qed.

(** X1: inside a write transaction [doCommit] stores, for every cell of
    the write set, the pending value together with [tctx.epoch] as version
    tag, and leaves every other cell, the thread context, the global context
    and the schedule as they are. *)
Theorem doCommit_publishes (s : State) :
  ctx (tctx s) ≠ nullptr → isWrite (tctx s) = true →
  ∃ s', impl.doCommit s = (Returned (), s') ∧
    tctx s' = tctx s ∧ global s' = global s ∧ sched s' = sched s ∧
    ∀ c, cell (heap s') c =
         match pendingWrites (tctx s) !! c with
         | Some v => mkVal v (epoch (tctx s))
         | None => cell (heap s) c
         end.
Proof.
  intros Hctx Hw. eexists. split; [by apply doCommit_spec|].
  cbn. do 3 (split; [done|]). intros c. apply cell_publish.
Qed.

Lemma doCommit_publishes_witness :
  (ctx (tctx writer_state) ≠ nullptr ∧ isWrite (tctx writer_state) = true) ∧
  ∃ s', impl.doCommit writer_state = (Returned (), s') ∧
    tctx s' = tctx writer_state ∧ global s' = global writer_state ∧
    sched s' = sched writer_state ∧
    ∀ c, cell (heap s') c =
         match pendingWrites (tctx writer_state) !! c with
         | Some v => mkVal v (epoch (tctx writer_state))
         | None => cell (heap writer_state) c
         end.
Proof.
  split; [split; [discriminate | reflexivity]|].
  apply (doCommit_publishes writer_state); [discriminate | reflexivity].
Defined.

(** ** Entering a transaction *)

(** X2: both drivers refuse to start inside a transaction: with [tctx.ctx]
    set, the entry assertion fails before anything is changed. *)
Theorem nested_entry_rejected {R} (f : Thunk R) (s : State) :
  ctx (tctx s) ≠ nullptr →
  readTx f s = (AssertFailed, s) ∧ writeTx f s = (AssertFailed, s).
Proof.
  intros Hctx. split.
  - unfold readTx. by rewrite bind_unfold, readTx_enter_fail.
  - unfold writeTx. rewrite bind_unfold, writeTx_enter_spec.
    by rewrite decide_False.
Qed.

Lemma nested_entry_rejected_witness :
  ctx (tctx writer_state) ≠ nullptr ∧
  readTx incr_thunk writer_state = (AssertFailed, writer_state) ∧
  writeTx incr_thunk writer_state = (AssertFailed, writer_state).
Proof.
  split; [discriminate|].
  apply (nested_entry_rejected incr_thunk writer_state). discriminate.
Defined.

Lemma writeTx_raised_ctx {R} (f : Thunk R) s e s' :
  writeTx f s = (Raised e, s') → ctx (tctx s') = this.
Proof.
  intros H. unfold writeTx in H.
  rewrite bind_unfold, writeTx_enter_spec in H.
  case_decide as Hctx; [|done].
  set (s0 := with_tctx _ s) in H.
  pose proof (local_rel_attempt f s0) as Hloc.
  apply bind_raised_inv in H as [H|(first & s1 & Ha & H)].
  - rewrite H in Hloc. cbn in Hloc. by rewrite (lr_ctx _ _ Hloc).
  - rewrite Ha in Hloc. cbn in Hloc.
    apply bind_raised_inv in H as [H|(r' & s2 & _ & H)].
    + destruct first as [r'|]; [done|].
      pose proof (local_rel_retry f s1) as Hloc2. rewrite H in Hloc2.
      cbn in Hloc2. by rewrite (lr_ctx _ _ Hloc2), (lr_ctx _ _ Hloc).
    + apply bind_raised_inv in H as [H|(? & ? & _ & H)]; done.
Qed.

Lemma readTx_raised_ctx {R} (f : Thunk R) s e s' :
  readTx f s = (Raised e, s') → ctx (tctx s') = this.
Proof.
  intros H. unfold readTx in H. rewrite bind_unfold in H.
  destruct (decide (ctx (tctx s) = nullptr)) as [Hctx|Hctx];
    [|by rewrite (readTx_enter_fail s Hctx) in H].
  destruct (readTx_enter_spec s Hctx) as (sa & Hrel & Henter).
  rewrite Henter in H. set (s1 := with_tctx _ sa) in H.
  pose proof (local_rel_fallback f s1) as Hloc.
  apply bind_raised_inv in H as [H|(r' & s2 & _ & H)].
  - rewrite H in Hloc. cbn in Hloc. rewrite (lr_ctx _ _ Hloc). cbn.
    by rewrite (er_tctx _ _ Hrel).
  - apply bind_raised_inv in H as [H|(? & ? & _ & H)]; done.
Qed.

(** X3: once an exception has left a driver, the thread can start no
    further transaction: [tctx.ctx] was left set, so the next [readTx] or
    [writeTx] fails its entry assertion at once. *)
Theorem exception_blocks_next_tx {R R'} (f : Thunk R) (g : Thunk R')
    (s s' : State) (e : Exn) :
  writeTx f s = (Raised e, s') ∨ readTx f s = (Raised e, s') →
  readTx g s' = (AssertFailed, s') ∧ writeTx g s' = (AssertFailed, s').
Proof.
  intros H. assert (Hctx : ctx (tctx s') = this).
  { destruct H as [H|H];
      [by eapply writeTx_raised_ctx | by eapply readTx_raised_ctx]. }
  split.
  - unfold readTx. rewrite bind_unfold, readTx_enter_fail; [done|].
    by rewrite Hctx.
  - unfold writeTx. rewrite bind_unfold, writeTx_enter_spec.
    rewrite decide_False; [done|]. by rewrite Hctx.
Qed.

Lemma exception_blocks_next_tx_witness :
  let s' := (writeTx throwing_thunk state0).2 in
  (writeTx throwing_thunk state0 = (Raised (UserExn 9), s') ∨
   readTx throwing_thunk state0 = (Raised (UserExn 9), s')) ∧
  readTx incr_thunk s' = (AssertFailed, s') ∧
  writeTx incr_thunk s' = (AssertFailed, s').
Proof.
  cbv zeta.
  assert (H : writeTx throwing_thunk state0
              = (Raised (UserExn 9), (writeTx throwing_thunk state0).2))
    by (vm_compute; reflexivity).
  split; [by left|].
  exact (exception_blocks_next_tx throwing_thunk incr_thunk _ _ _
           (or_introl H)).
Defined.

(** ** What a thunk cannot do *)

(** X4: whatever a thunk does through [get] and [set], it leaves
    [tctx.ctx], [tctx.isWrite] and the start epoch alone, removes nothing
    from the read set, neither removes nor changes a pending write, and
    leaves both retry counters and the mutex alone; in a read transaction it
    leaves the whole thread context alone; and what changes in the cells and
    the global epoch meanwhile is the work of foreign commits only. *)
Theorem thunk_frame {R} (f : Thunk R) (s : State) :
  let s' := (call f s).2 in
  ctx (tctx s') = ctx (tctx s) ∧
  isWrite (tctx s') = isWrite (tctx s) ∧
  epoch (tctx s') = epoch (tctx s) ∧
  pendingReads (tctx s) ⊆ pendingReads (tctx s') ∧
  (∀ c v, pendingWrites (tctx s) !! c = Some v →
          pendingWrites (tctx s') !! c = Some v) ∧
  (isWrite (tctx s) = false → tctx s' = tctx s) ∧
  readRetries_ (global s') = readRetries_ (global s) ∧
  writeRetries_ (global s') = writeRetries_ (global s) ∧
  mu_ (global s') = mu_ (global s) ∧
  (∃ consumed,
     sched s = consumed ++ sched s' ∧
     (heap s', epoch_ (global s'))
     = env_run consumed (heap s, epoch_ (global s))).
Proof.
  cbv zeta. destruct (call_rel_call f s).
  do 4 (split; [done|]). split.
  { intros c v Hc. by eapply lookup_weaken. }
  do 4 (split; [done|]). exact cr_env0.
Qed.

(** ** [set] and [get] in a write transaction *)

(** X5: in a write transaction, a [set] on a cell followed by another
    [set] on the same cell is the first [set] alone: the second changes
    nothing. *)
Theorem second_set_is_dropped (c : addr) (v1 v2 : Z) (s : State) :
  (Val.set c v1 ;; Val.set c v2) s = Val.set c v1 s.
Proof. apply set_twice_is_first. Qed.

(** X6: in a write transaction, [get] right after [set(v)] on the same cell
    returns the value that was pending for the cell before the [set] when
    there was one and [v] otherwise, loads nothing from the cell and adds
    nothing to the read set. *)
Theorem get_after_set_pending (c : addr) (v : Z) (s : State) :
  ctx (tctx s) ≠ nullptr → isWrite (tctx s) = true →
  (Val.set c v ;; Val.get c) s =
  (Returned (default v (pendingWrites (tctx s) !! c)),
   with_tctx
     (with_pendingWrites (Val.emplace c v (pendingWrites (tctx s))) (tctx s))
     s).
Proof.
  intros Hctx Hw. rewrite (get_after_set c v s Hctx Hw).
  by rewrite (set_spec c v s Hctx Hw).
Qed.

Lemma get_after_set_pending_witness :
  (ctx (tctx writer_state) ≠ nullptr ∧ isWrite (tctx writer_state) = true) ∧
  (Val.set 2 7 ;; Val.get 2) writer_state =
  (Returned (default 7%Z (pendingWrites (tctx writer_state) !! 2)),
   with_tctx
     (with_pendingWrites
        (Val.emplace 2 7 (pendingWrites (tctx writer_state)))
        (tctx writer_state))
     writer_state).
Proof.
  split; [split; [discriminate | reflexivity]|].
  apply (get_after_set_pending 2 7 writer_state); [discriminate | reflexivity].
Defined.

(** ** The retry counters and the mutex *)

#[export] Instance ctr_rel_preorder : PreOrder ctr_rel.
Proof.
  split.
  - intros s. by split.
  - intros s1 s2 s3 [] []. split; congruence.
Qed.

Lemma env_rel_ctr_rel s s' : env_rel s s' → ctr_rel s s'.
Proof. intros []. by split. Qed.

Lemma call_rel_ctr_rel s s' : call_rel s s' → ctr_rel s s'.
Proof. intros []. by split. Qed.

Lemma local_rel_entered s1 s2 :
  local_rel s1 s2 → ctx (tctx s1) ≠ nullptr → isWrite (tctx s1) = true →
  ctx (tctx s2) ≠ nullptr ∧ isWrite (tctx s2) = true.
Proof. intros [] ? ?. split; congruence. Qed.

(** The first attempt of [writeTx] leaves the counters alone, and the mutex
    too unless it ends blocked. *)
Lemma writeTx_attempt_quiet {R} (f : Thunk R) (s : State) :
  ctx (tctx s) ≠ nullptr → isWrite (tctx s) = true →
  ctr_rel s (writeTx_attempt f s).2 ∧
  (∀ r, (writeTx_attempt f s).1 = Returned (Some r) →
        mu_ (global s) = Unlocked ∧
        mu_ (global (writeTx_attempt f s).2) = Unlocked) ∧
  (∀ e, (writeTx_attempt f s).1 = Raised e →
        mu_ (global (writeTx_attempt f s).2) = mu_ (global s)) ∧
  ((writeTx_attempt f s).1 = Returned None →
        mu_ (global (writeTx_attempt f s).2) = mu_ (global s)).
Proof.
  intros Hctx Hw.
  destruct (writeTx_attempt_spec f s Hctx Hw) as (sa & o & sf & Ha & Hf & Ho).
  pose proof (call_rel_call f
    (with_tctx (with_epoch (epoch_ (global sa)) (tctx sa)) sa)) as Hcall.
  rewrite Hf in Hcall. cbn in Hcall.
  assert (Hc : ctr_rel s sf).
  { etrans; [exact (env_rel_ctr_rel _ _ Ha)|].
    destruct Hcall. by split. }
  assert (Hmu : mu_ (global sf) = mu_ (global s)).
  { rewrite (cr_mu _ _ Hcall). cbn. apply Ha. }
  assert (Hcb : ∀ sb, env_rel sf sb → ctr_rel s sb)
    by (intros sb Hb; etrans; [exact Hc | exact (env_rel_ctr_rel _ _ Hb)]).
  destruct Hc as [Hc1 Hc2].
  destruct o as [r|[|e]| |];
    try (rewrite Ho; cbn; repeat split; first [done | congruence]).
  destruct Ho as (sb & Hb & ->).
  destruct (Hcb sb Hb) as [Hb1 Hb2].
  case_decide as Hm; [|cbn; repeat split; first [done | congruence]].
  destruct (validb (locked sb)); cbn; repeat split;
    first [done | congruence].
Qed.

(** The retry counts itself once, and holds [mu_] when it ends by an
    exception. *)
Lemma writeTx_retry_quiet {R} (f : Thunk R) (s : State) :
  ctx (tctx s) ≠ nullptr → isWrite (tctx s) = true →
  readRetries_ (global (writeTx_retry f s).2) = readRetries_ (global s) ∧
  writeRetries_ (global (writeTx_retry f s).2)
  = u64 (writeRetries_ (global s) + 1) ∧
  (∀ r, (writeTx_retry f s).1 = Returned r →
        mu_ (global s) = Unlocked ∧
        mu_ (global (writeTx_retry f s).2) = Unlocked) ∧
  (∀ e, (writeTx_retry f s).1 = Raised e →
        mu_ (global (writeTx_retry f s).2) = Locked).
Proof.
  intros Hctx Hw.
  destruct (writeTx_retry_spec f s Hctx Hw) as (sa & Ha & Hr).
  destruct Ha as [_ Ha1 Ha2 Ha3 _ _]. cbn in Ha1, Ha2, Ha3.
  case_decide as Hmu.
  - destruct Hr as (_ & o & sf & Hf & Hcall & ->).
    destruct Hcall as [_ _ _ _ _ _ Hc1 Hc2 Hc3 _ _]. cbn in Hc1, Hc2, Hc3.
    destruct o as [r|e| |]; cbn; repeat split; try done; congruence.
  - destruct Hr as [_ ->]. cbn. by repeat split.
Qed.

(** X7: [writeTx] leaves the readers' retry counter alone and raises the
    writers' retry counter by one exactly when the first attempt fails, by
    [TxFailed] or by validation; otherwise it leaves it alone. *)
Theorem writeTx_counts_retries {R} (f : Thunk R) (s : State) :
  let s' := (writeTx f s).2 in
  readRetries_ (global s') = readRetries_ (global s) ∧
  writeRetries_ (global s') =
    (if writeTx_retries f s then u64 (writeRetries_ (global s) + 1)
     else writeRetries_ (global s)).
Proof.
  cbv zeta. unfold writeTx, writeTx_retries.
  rewrite bind_unfold, writeTx_enter_spec.
  case_decide as Hctx; [|done].
  set (s0 := with_tctx _ s).
  assert (Hctx0 : ctx (tctx s0) ≠ nullptr) by done.
  assert (Hw0 : isWrite (tctx s0) = true) by done.
  destruct (writeTx_attempt_quiet f s0 Hctx0 Hw0) as ([Hc1 Hc2] & _).
  pose proof (local_rel_attempt f s0) as Hloc.
  rewrite bind_unfold.
  destruct (writeTx_attempt f s0) as [[[r|]|e| |] s1]; cbn in *; try done.
  destruct (local_rel_entered _ _ Hloc Hctx0 Hw0) as [Hctx1 Hw1].
  destruct (writeTx_retry_quiet f s1 Hctx1 Hw1) as (Hr1 & Hr2 & _).
  rewrite bind_unfold.
  destruct (writeTx_retry f s1) as [[r|e| |] s2]; cbn in *;
    split; congruence.
Qed.

Lemma writeTx_returned_mu {R} (f : Thunk R) (s s' : State) (r : R) :
  writeTx f s = (Returned r, s') →
  mu_ (global s) = Unlocked ∧ mu_ (global s') = Unlocked.
Proof.
  unfold writeTx. rewrite bind_unfold, writeTx_enter_spec.
  case_decide as Hctx; [|done].
  set (s0 := with_tctx _ s).
  assert (Hctx0 : ctx (tctx s0) ≠ nullptr) by done.
  assert (Hw0 : isWrite (tctx s0) = true) by done.
  destruct (writeTx_attempt_quiet f s0 Hctx0 Hw0) as (_ & Hsome & _ & Hnone).
  pose proof (local_rel_attempt f s0) as Hloc.
  rewrite bind_unfold.
  destruct (writeTx_attempt f s0) as [[[r0|]|e| |] s1]; cbn in *; try done.
  - intros [= ? ?]; subst. cbn. exact (Hsome _ eq_refl).
  - destruct (local_rel_entered _ _ Hloc Hctx0 Hw0) as [Hctx1 Hw1].
    destruct (writeTx_retry_quiet f s1 Hctx1 Hw1) as (_ & _ & Hret & _).
    rewrite bind_unfold.
    destruct (writeTx_retry f s1) as [[r1|e| |] s2]; cbn in *; try done.
    intros [= ? ?]; subst. cbn. destruct (Hret _ eq_refl) as [Hm1 Hm2].
    split; [|done]. by rewrite <- (Hnone eq_refl).
Qed.

Lemma writeTx_returned_clean {R} (f : Thunk R) (s s' : State) (r : R) :
  writeTx f s = (Returned r, s') →
  ctx (tctx s') = nullptr ∧
  pendingReads (tctx s') = ∅ ∧ pendingWrites (tctx s') = ∅.
Proof.
  intros H. unfold writeTx in H.
  apply bind_returned_inv in H as (_ & s0 & _ & H).
  apply bind_returned_inv in H as (first & s1 & _ & H).
  apply bind_returned_inv in H as (r' & s2 & _ & H).
  apply bind_returned_inv in H as ([] & s3 & Hc & H).
  rewrite writeTx_cleanup_spec in Hc. injection Hc as <-.
  by injection H as _ <-.
Qed.

(** X8: [writeTx] returns only if the calling thread did not hold [mu_]
    on entry, and it returns with [mu_] released. *)
Theorem writeTx_returns_unlocked {R} (f : Thunk R) (s s' : State) (r : R) :
  writeTx f s = (Returned r, s') →
  mu_ (global s) = Unlocked ∧ mu_ (global s') = Unlocked.
Proof. apply writeTx_returned_mu. Qed.

Lemma writeTx_returns_unlocked_witness :
  writeTx incr_thunk contended_state
  = (Returned (), (writeTx incr_thunk contended_state).2) ∧
  mu_ (global contended_state) = Unlocked ∧
  mu_ (global (writeTx incr_thunk contended_state).2) = Unlocked.
Proof.
  assert (H : writeTx incr_thunk contended_state
              = (Returned (), (writeTx incr_thunk contended_state).2))
    by (vm_compute; reflexivity).
  split; [exact H|].
  exact (writeTx_returns_unlocked incr_thunk _ _ _ H).
Defined.

(** X9: an exception that leaves a driver from the second execution of the
    thunk leaves the mutex held: exclusively after the retry block of
    [writeTx], in shared mode after the [catch] block of [readTx]; an
    exception from the first execution leaves the mutex as it was. *)
Theorem exception_keeps_mutex {R} (f : Thunk R) (s : State) :
  (∀ e s', writeTx f s = (Raised e, s') →
     mu_ (global s') =
       if writeTx_retries f s then Locked else mu_ (global s)) ∧
  (∀ e s', readTx f s = (Raised e, s') →
     mu_ (global s') =
       if readTx_falls_back f s then LockedShared else mu_ (global s)).
Proof.
  split.
  - intros e s'. unfold writeTx, writeTx_retries.
    rewrite bind_unfold, writeTx_enter_spec.
    case_decide as Hctx; [|done].
    set (s0 := with_tctx _ s).
    assert (Hctx0 : ctx (tctx s0) ≠ nullptr) by done.
    assert (Hw0 : isWrite (tctx s0) = true) by done.
    destruct (writeTx_attempt_quiet f s0 Hctx0 Hw0) as (_ & _ & Hraised & _).
    pose proof (local_rel_attempt f s0) as Hloc.
    rewrite bind_unfold.
    destruct (writeTx_attempt f s0) as [[[r0|]|e0| |] s1]; cbn in *;
      try done.
    + destruct (local_rel_entered _ _ Hloc Hctx0 Hw0) as [Hctx1 Hw1].
      destruct (writeTx_retry_quiet f s1 Hctx1 Hw1) as (_ & _ & _ & Hr).
      rewrite bind_unfold.
      destruct (writeTx_retry f s1) as [[r1|e1| |] s2]; cbn in *; try done.
      intros [= ? ?]; subst. exact (Hr _ eq_refl).
    + intros [= ? ?]; subst. exact (Hraised _ eq_refl).
  - intros e s'. unfold readTx, readTx_falls_back. rewrite bind_unfold.
    destruct (decide (ctx (tctx s) = nullptr)) as [Hctx|Hctx];
      [|by rewrite (readTx_enter_fail s Hctx)].
    destruct (readTx_enter_spec s Hctx) as (sa & Hrel & ->).
    set (s1 := with_tctx _ sa).
    assert (Hmu1 : mu_ (global s1) = mu_ (global s)) by apply Hrel.
    clearbody s1. rewrite bind_unfold. unfold try_catch_TxFailed.
    pose proof (call_rel_call f s1) as Hcall.
    destruct (call f s1) as [[r|[|e0]| |] s2]; cbn in Hcall; try done.
    + pose proof (readTx_fallback_raised f s2) as Hfb.
      destruct (readTx_fallback f s2) as [[r| e1| |] s3]; cbn in *;
        try done.
      intros [= ? ?]; subst. exact (Hfb _ eq_refl).
    + intros [= ? ?]; subst. by rewrite (cr_mu _ _ Hcall).
Qed.

(** The two leaks of X9 occur: a thunk that reads a cell and throws, met
    by a foreign commit to that cell during its first execution, throws from
    its second execution, with the mutex held. *)
Lemma mutex_leak_example :
  let s := with_sched [[]; []; [{[1 := 10%Z]}]] state0 in
  (writeTx get_then_throw_thunk s).1 = Raised (UserExn 9) ∧
  mu_ (global (writeTx get_then_throw_thunk s).2) = Locked ∧
  (readTx get_then_throw_thunk s).1 = Raised (UserExn 9) ∧
  mu_ (global (readTx get_then_throw_thunk s).2) = LockedShared.
Proof. by vm_compute. Qed.

(** X10: a [writeTx] that does not return has stored nothing: what changed
    in the cells and in the global epoch is the work of the foreign commits
    that went by, and nothing at all changed when there were none. *)
Theorem writeTx_stores_only_on_return {R} (f : Thunk R) (s : State) :
  (∀ r, (writeTx f s).1 ≠ Returned r) →
  let s' := (writeTx f s).2 in
  (∃ consumed,
     sched s = consumed ++ sched s' ∧
     (heap s', epoch_ (global s'))
     = env_run consumed (heap s, epoch_ (global s))) ∧
  (sched s = [] → heap s' = heap s ∧ epoch_ (global s') = epoch_ (global s)).
Proof.
  intros Hn. cbv zeta. pose proof (writeTx_shared f s) as Hsh.
  destruct (writeTx f s) as [o s']. cbn in *.
  assert (Henv : env_steps s s').
  { destruct o as [r|e| |]; [by destruct (Hn r)|done..]. }
  split; [exact Henv|].
  intros Hq. destruct Henv as (consumed & Hs & Hshared). rewrite Hq in Hs.
  symmetry in Hs. apply app_eq_nil in Hs as [-> _]. by inversion Hshared.
Qed.

Lemma writeTx_stores_only_on_return_witness :
  (∀ r, (writeTx throwing_thunk state0).1 ≠ Returned r) ∧
  let s' := (writeTx throwing_thunk state0).2 in
  (∃ consumed,
     sched state0 = consumed ++ sched s' ∧
     (heap s', epoch_ (global s'))
     = env_run consumed (heap state0, epoch_ (global state0))) ∧
  (sched state0 = [] →
   heap s' = heap state0 ∧ epoch_ (global s') = epoch_ (global state0)).
Proof.
  assert (H : ∀ r, (writeTx throwing_thunk state0).1 ≠ Returned r).
  { intros r Hr. vm_compute in Hr. discriminate. }
  split; [exact H|].
  exact (writeTx_stores_only_on_return throwing_thunk state0 H).
Defined.

(** ** Snapshots *)

Lemma env_run_concat (batches : list (list (gmap N Z))) sh :
  env_run batches sh = foldl commit_shared sh (concat batches).
Proof.
  revert sh. induction batches as [|b batches IH]; intros sh; [done|].
  cbn. rewrite foldl_app. apply IH.
Qed.

Lemma commit_shared_snap E h0 sh ws :
  sh.2 + 1 < 2 ^ 64 → snap_shared E h0 sh →
  snap_shared E h0 (commit_shared sh ws) ∧
  ∀ c, valEpoch_ (cell sh.1 c) ≤ valEpoch_ (cell (commit_shared sh ws).1 c).
Proof.
  intros Hb (Hwf & HE & Hst). split; [split; [|split]|].
  - by apply commit_shared_wf.
  - rewrite commit_shared_epoch by done. lia.
  - intros c. rewrite cell_commit_shared.
    destruct (ws !! c); cbn; [|apply Hst].
    rewrite (u64_small _ Hb). lia.
  - intros c. by apply commit_shared_mono.
Qed.

Lemma commits_snap E h0 (l : list (gmap N Z)) sh :
  sh.2 + N.of_nat (length l) < 2 ^ 64 → snap_shared E h0 sh →
  let sh' := foldl commit_shared sh l in
  snap_shared E h0 sh' ∧ sh'.2 = sh.2 + N.of_nat (length l) ∧
  ∀ c, valEpoch_ (cell sh.1 c) ≤ valEpoch_ (cell sh'.1 c).
Proof.
  revert sh. induction l as [|ws l IH]; intros sh Hb Hsn; cbn.
  - split; [done|]. split; [lia|]. intros; lia.
  - cbn in Hb. assert (Hb1 : sh.2 + 1 < 2 ^ 64) by lia.
    destruct (commit_shared_snap E h0 sh ws Hb1 Hsn) as [Hsn1 Hm1].
    pose proof (commit_shared_epoch sh ws Hb1) as He1.
    destruct (IH (commit_shared sh ws)) as (Hsn2 & He2 & Hm2);
      [rewrite He1; lia | done |].
    split; [done|]. split; [rewrite He2, He1; lia|].
    intros c. specialize (Hm1 c). specialize (Hm2 c). lia.
Qed.

(** Foreign commits keep a snapshot a snapshot, and never lower a tag. *)
Lemma snap_inv_env E h0 s s' :
  env_steps s s' → snap_inv E h0 s →
  snap_inv E h0 s' ∧ epoch_ (global s) ≤ epoch_ (global s') ∧
  (sched s' = sched s → shared s' = shared s) ∧
  ∀ c, valEpoch_ (cell (heap s) c) ≤ valEpoch_ (cell (heap s') c).
Proof.
  intros (consumed & Hs & Hsh) [Hsn Hb].
  rewrite Hs, commits_app in Hb. unfold commits in Hb at 1.
  rewrite env_run_concat in Hsh.
  destruct (commits_snap E h0 (concat consumed) (shared s))
    as (Hsn' & He & Hm); [cbn; lia | done |].
  rewrite <- Hsh in Hsn', He, Hm. cbn in He, Hm.
  split; [split; [done|lia]|]. split; [lia|]. split; [|done].
  intros Heq. rewrite Heq in Hs.
  assert (consumed = []) as ->.
  { apply (f_equal length) in Hs. rewrite length_app in Hs.
    destruct consumed; [done|cbn in Hs; lia]. }
  by rewrite Hsh.
Qed.

Lemma snap_inv_same E h0 s s' :
  shared s' = shared s → sched s' = sched s →
  snap_inv E h0 s → snap_inv E h0 s'.
Proof.
  intros Hsh Hs [Hsn Hb]. split; [by rewrite Hsh|].
  rewrite Hs. change (epoch_ (global s')) with (shared s').2.
  by rewrite Hsh.
Qed.

Lemma snap_inv_start s :
  wf_shared (shared s) → epoch_ (global s) + commits (sched s) < 2 ^ 64 →
  snap_inv (epoch_ (global s)) (heap s) s.
Proof. intros Hwf Hb. split; [|done]. split; [done|]. split; [cbn; lia|done]. Qed.

(** [getFromRead] inside a snapshot: it returns the value the cell had
    when the snapshot was taken, or throws because the global epoch has
    moved on. *)
Lemma getFromRead_snapshot E h0 c s :
  snap_inv E h0 s → epoch (tctx s) = E →
  ∃ s', env_rel s s' ∧ snap_inv E h0 s' ∧
    (Val.getFromRead c s = (Returned (val_ (cell h0 c)), s') ∨
     (Val.getFromRead c s = (Raised TxFailed, s') ∧
      E < epoch_ (global s'))).
Proof.
  intros Hsn HE.
  destruct (load_val_spec c s) as (s1 & Hv & H1).
  destruct (load_valEpoch_spec c s1) as (s2 & He & H2).
  destruct (snap_inv_env E h0 s s1 (env_rel_env_steps _ _ H1) Hsn)
    as (Hsn1 & _ & _ & _).
  destruct (snap_inv_env E h0 s1 s2 (env_rel_env_steps _ _ H2) Hsn1)
    as (Hsn2 & _ & _ & Hm).
  exists s2. split; [by etrans|]. split; [done|].
  unfold Val.getFromRead. rewrite bind_unfold, Hv, bind_unfold, He.
  rewrite bind_unfold. cbn [read_tctx].
  rewrite (er_tctx _ _ H2), (er_tctx _ _ H1), HE.
  destruct Hsn1 as [(_ & _ & Hst1) _]. destruct Hsn2 as [(Hwf2 & _ & _) _].
  destruct (E <? valEpoch_ (cell (heap s2) c)) eqn:Hcmp.
  - right. split; [done|]. apply N.ltb_lt in Hcmp.
    specialize (Hwf2 c). cbn in Hwf2. lia.
  - left. apply N.ltb_ge in Hcmp. unfold ret. do 2 f_equal.
    f_equal. apply Hst1. cbn. specialize (Hm c). lia.
Qed.

Lemma alone_read_not_internal {R} h (f : Thunk R) :
  alone_read h f ≠ Raised TxFailed ∧ alone_read h f ≠ Blocked.
Proof. induction f; cbn; done. Qed.

Lemma alone_write_not_internal {R} h (f : Thunk R) rs ws :
  (alone_write h f rs ws).1 ≠ Raised TxFailed ∧
  (alone_write h f rs ws).1 ≠ Blocked ∧
  (alone_write h f rs ws).1 ≠ AssertFailed.
Proof.
  revert rs ws. induction f as [r|c k IH|c v k IH|e]; intros rs ws; cbn;
    try done.
  destruct (ws !! c); apply IH.
Qed.

(** A thunk in read mode inside a snapshot: it ends as it does when run on
    its own against the cells of the snapshot, or throws [TxFailed] because
    the global epoch has moved on. *)
Lemma call_read_snapshot {R} E h0 (f : Thunk R) s :
  isWrite (tctx s) = false → ctx (tctx s) ≠ nullptr →
  snap_inv E h0 s → epoch (tctx s) = E →
  snap_inv E h0 (call f s).2 ∧
  ((call f s).1 = alone_read h0 f ∨
   ((call f s).1 = Raised TxFailed ∧ E < epoch_ (global (call f s).2))).
Proof.
  revert s. induction f as [r|c k IH|c v k IH|e]; intros s Hw Hctx Hsn HE;
    cbn [call alone_read].
  - split; [done|by left].
  - rewrite bind_unfold, (get_read_spec c s Hctx Hw).
    destruct (getFromRead_snapshot E h0 c s Hsn HE)
      as (s' & Hrel & Hsn' & [->| [-> Hlt]]).
    + apply IH; rewrite ?(er_tctx _ _ Hrel); done.
    + split; [done|]. by right.
  - rewrite bind_unfold.
    assert (Hset : Val.set c v s = (AssertFailed, s)).
    { unfold Val.set, bind, read_tctx, assert. cbn.
      by rewrite bool_decide_eq_true_2, Hw. }
    rewrite Hset. split; [done|by left].
  - split; [done|by left].
Qed.

(** A thunk in write mode inside a snapshot: it ends, and leaves the two
    sets, as it does when run on its own against the cells of the snapshot,
    or throws [TxFailed] because the global epoch has moved on. *)
Lemma call_write_snapshot {R} E h0 (f : Thunk R) s :
  isWrite (tctx s) = true → ctx (tctx s) ≠ nullptr →
  snap_inv E h0 s → epoch (tctx s) = E →
  snap_inv E h0 (call f s).2 ∧
  (((call f s).1, sets (call f s).2)
   = alone_write h0 f (pendingReads (tctx s)) (pendingWrites (tctx s)) ∨
   ((call f s).1 = Raised TxFailed ∧ E < epoch_ (global (call f s).2))).
Proof.
  revert s. induction f as [r|c k IH|c v k IH|e]; intros s Hw Hctx Hsn HE;
    cbn [call alone_write].
  - split; [done|by left].
  - rewrite bind_unfold, (get_write_spec c s Hctx Hw).
    unfold Val.getFromWrite. rewrite bind_unfold. cbn [read_tctx].
    destruct (pendingWrites (tctx s) !! c) as [w|] eqn:Hc.
    + cbn [ret]. by apply IH.
    + rewrite bind_unfold. cbn [modify_tctx].
      set (s0 := with_tctx _ s).
      destruct (getFromRead_snapshot E h0 c s0) as
        (s' & Hrel & Hsn' & [->| [-> Hlt]]); [done..| |].
      * destruct (IH (val_ (cell h0 c)) s') as [Hsn2 Hres];
          rewrite ?(er_tctx _ _ Hrel); try done.
        split; [done|]. by rewrite (er_tctx _ _ Hrel) in Hres.
      * split; [done|]. by right.
  - rewrite bind_unfold, (set_spec c v s Hctx Hw). by apply IH.
  - split; [done|by left].
Qed.

Lemma snap_inv_restart E h0 s s' :
  env_steps s s' → snap_inv E h0 s →
  snap_inv (epoch_ (global s')) (heap s') s' ∧
  epoch_ (global s) ≤ epoch_ (global s').
Proof.
  intros Henv Hsn.
  destruct (snap_inv_env E h0 s s' Henv Hsn) as ([(Hwf & _) Hb] & Hle & _).
  split; [by apply snap_inv_start|done].
Qed.

(** [readTx], seen as a whole: its outcome is that of the thunk run on its
    own against the cells as they stood at one point [sx] of the run; that
    point is reached through foreign commits only, and when the [catch] block
    was taken the global epoch has grown on the way. *)
Lemma readTx_snapshot_core {R} (f : Thunk R) (s : State) :
  ctx (tctx s) = nullptr → mu_ (global s) = Unlocked →
  wf_shared (shared s) → epoch_ (global s) + commits (sched s) < 2 ^ 64 →
  ∃ sx, env_steps s sx ∧
    (readTx f s).1 = alone_read (heap sx) f ∧
    (readTx_falls_back f s = true → epoch_ (global s) < epoch_ (global sx)) ∧
    epoch_ (global sx) ≤ epoch_ (global (readTx f s).2) ∧
    ∃ later, sched sx = later ++ sched (readTx f s).2.
Proof.
  intros Hctx Hmu Hwf Hb.
  pose proof (snap_inv_start s Hwf Hb) as Hsn0.
  unfold readTx, readTx_falls_back. rewrite bind_unfold.
  destruct (readTx_enter_spec s Hctx) as (sa & Ha & ->).
  assert (Hsa : env_steps s sa).
  { eapply env_steps_trans; [|exact (env_rel_env_steps _ _ Ha)].
    by apply env_steps_same. }
  destruct (snap_inv_restart _ _ s sa Hsa Hsn0) as [Hsna Hlea].
  set (s1 := with_tctx (with_epoch (epoch_ (global sa)) (tctx sa)) sa).
  assert (Hsn1 : snap_inv (epoch_ (global sa)) (heap sa) s1)
    by by apply (snap_inv_same _ _ sa).
  assert (Hw1 : isWrite (tctx s1) = false)
    by (cbn; by rewrite (er_tctx _ _ Ha)).
  assert (Hctx1 : ctx (tctx s1) ≠ nullptr)
    by (cbn; by rewrite (er_tctx _ _ Ha)).
  assert (Hmu1 : mu_ (global s1) = Unlocked)
    by (cbn; by rewrite (er_mu _ _ Ha)).
  destruct (call_read_snapshot _ _ f s1 Hw1 Hctx1 Hsn1 eq_refl)
    as [Hsn2 Hres].
  pose proof (call_rel_call f s1) as Hcall.
  rewrite bind_unfold. unfold try_catch_TxFailed.
  destruct (call f s1) as [o s2]. cbn in Hsn2, Hres, Hcall.
  assert (Hle2 : epoch_ (global sa) ≤ epoch_ (global s2)).
  { by destruct (snap_inv_env _ _ s1 s2 (call_rel_env_steps _ _ Hcall) Hsn1)
      as (_ & Hle & _). }
  destruct Hres as [Ho|[-> Hlt]].
  { exists sa. split; [done|].
    destruct (call_rel_env_steps _ _ Hcall) as (later & Hlater & _).
    destruct (alone_read_not_internal (heap sa) f) as [Hn1 Hn2].
    rewrite <- Ho in *.
    destruct o as [r|[|e]| |]; try done;
      (do 3 (split; [done|])); by exists later. }
  unfold readTx_fallback. rewrite bind_unfold. cbn [modify_global].
  set (s3 := with_global _ s2).
  destruct (lock_shared_spec s3) as (sb & Hb3 & Hlock).
  rewrite bind_unfold, Hlock.
  rewrite decide_True by (cbn; by rewrite (cr_mu _ _ Hcall)).
  set (s4 := with_global _ sb).
  rewrite bind_unfold, load_epoch_locked by done.
  rewrite bind_unfold. cbn [modify_tctx].
  set (s5 := with_tctx _ s4).
  assert (Hs2b : env_steps s2 sb).
  { eapply env_steps_trans; [|exact (env_rel_env_steps _ _ Hb3)].
    by apply env_steps_same. }
  destruct (snap_inv_restart _ _ s2 sb Hs2b Hsn2) as [Hsnb Hleb].
  assert (Hsn5 : snap_inv (epoch_ (global sb)) (heap sb) s5)
    by by apply (snap_inv_same _ _ sb).
  assert (Ht5 : tctx sb = tctx s1).
  { rewrite (er_tctx _ _ Hb3). cbn.
    apply (cr_read_mode _ _ Hcall Hw1). }
  assert (Hw5 : isWrite (tctx s5) = false) by (cbn; by rewrite Ht5).
  assert (Hctx5 : ctx (tctx s5) ≠ nullptr) by (cbn; by rewrite Ht5).
  destruct (call_read_snapshot _ _ f s5 Hw5 Hctx5 Hsn5 eq_refl)
    as [_ Hres5].
  pose proof (call_rel_call f s5) as Hcall5.
  rewrite bind_unfold.
  destruct (call f s5) as [o5 s6]. cbn in Hres5, Hcall5.
  exists sb. split.
  { eapply env_steps_trans; [exact Hsa|].
    eapply env_steps_trans; [|exact Hs2b].
    eapply env_steps_trans; [|exact (call_rel_env_steps _ _ Hcall)].
    by apply env_steps_same. }
  destruct (cr_locked _ _ Hcall5) as [Hsh Hsc]; [done|].
  assert (He6 : epoch_ (global s6) = epoch_ (global sb)).
  { change (epoch_ (global s6)) with (shared s6).2. by rewrite Hsh. }
  destruct Hres5 as [Ho|[_ Hlt5]]; [|exfalso; cbn in Hlt5; lia].
  destruct (alone_read_not_internal (heap sb) f) as [Hn1 Hn2].
  change (heap s5) with (heap sb) in Ho.
  rewrite <- Ho in *.
  destruct o5 as [r|[|e]| |]; cbn; rewrite ?He6;
    (split; [done|]); (split; [intros _; lia|]); (split; [done|]);
    exists []; by rewrite Hsc.
Qed.

Lemma alone_write_reads_grow {R} h (f : Thunk R) rs ws :
  rs ⊆ (alone_write h f rs ws).2.1.
Proof.
  revert rs ws. induction f as [r|c k IH|c v k IH|e]; intros rs ws; cbn;
    try done.
  destruct (ws !! c); [apply IH|].
  etrans; [|apply IH]. set_solver.
Qed.

(** The run of a thunk on its own depends on the cells only through the
    values of those it puts into the read set. *)
Lemma alone_write_agree {R} h h' (f : Thunk R) rs ws :
  (∀ c, c ∈ (alone_write h f rs ws).2.1 →
        val_ (cell h' c) = val_ (cell h c)) →
  alone_write h' f rs ws = alone_write h f rs ws.
Proof.
  revert rs ws. induction f as [r|c k IH|c v k IH|e]; intros rs ws; cbn;
    try done.
  - destruct (ws !! c) as [w|]; [apply IH|].
    intros Hag. rewrite (Hag c).
    + by apply IH.
    + apply (alone_write_reads_grow h (k (val_ (cell h c)))). set_solver.
  - apply IH.
Qed.

(** The first attempt of [writeTx], seen as a whole. *)
Lemma writeTx_attempt_serial {R} (f : Thunk R) (s : State) :
  ctx (tctx s) ≠ nullptr → isWrite (tctx s) = true →
  mu_ (global s) = Unlocked →
  wf_shared (shared s) → epoch_ (global s) + commits (sched s) < 2 ^ 64 →
  match writeTx_attempt f s with
  | (Returned (Some r), s1) =>
      ∃ sx ws, env_steps s sx ∧ sched s1 = sched sx ∧
        alone_write (heap sx) f (pendingReads (tctx s))
          (pendingWrites (tctx s))
        = (Returned r, (pendingReads (tctx s1), ws)) ∧
        pendingWrites (tctx s1) = ws ∧
        shared s1 = commit_shared (shared sx) ws
  | (Returned None, s1) =>
      env_steps s s1 ∧ wf_shared (shared s1) ∧
      epoch_ (global s1) + commits (sched s1) < 2 ^ 64 ∧
      epoch_ (global s) < epoch_ (global s1)
  | (Raised e, s1) =>
      ∃ sx, env_steps s sx ∧
        alone_write (heap sx) f (pendingReads (tctx s))
          (pendingWrites (tctx s))
        = (Raised e, sets s1)
  | _ => False
  end.
Proof.
  intros Hctx Hw Hmu Hwf Hb.
  pose proof (snap_inv_start s Hwf Hb) as Hsn0.
  destruct (writeTx_attempt_spec f s Hctx Hw) as (sa & o & sf & Ha & Hf & Ho).
  destruct (snap_inv_restart _ _ s sa (env_rel_env_steps _ _ Ha) Hsn0)
    as [Hsna Hlea].
  set (E := epoch_ (global sa)) in *.
  set (s1 := with_tctx (with_epoch E (tctx sa)) sa) in *.
  assert (Hsn1 : snap_inv E (heap sa) s1) by by apply (snap_inv_same _ _ sa).
  assert (Ht1 : tctx s1 = with_epoch E (tctx s))
    by (cbn; by rewrite (er_tctx _ _ Ha)).
  assert (Hw1 : isWrite (tctx s1) = true) by by rewrite Ht1.
  assert (Hctx1 : ctx (tctx s1) ≠ nullptr) by by rewrite Ht1.
  destruct (call_write_snapshot E (heap sa) f s1 Hw1 Hctx1 Hsn1)
    as [Hsnf Hres]; [by rewrite Ht1|].
  pose proof (call_rel_call f s1) as Hcall.
  rewrite Hf in Hsnf, Hres, Hcall. cbn in Hsnf, Hres, Hcall.
  rewrite (er_tctx _ _ Ha) in Hres.
  destruct (alone_write_not_internal (heap sa) f (pendingReads (tctx s))
              (pendingWrites (tctx s))) as (Hn1 & Hn2 & Hn3).
  assert (Hsf : env_steps s sf).
  { eapply env_steps_trans; [exact (env_rel_env_steps _ _ Ha)|].
    eapply env_steps_trans; [|exact (call_rel_env_steps _ _ Hcall)].
    by apply env_steps_same. }
  destruct (snap_inv_env _ _ s1 sf (call_rel_env_steps _ _ Hcall) Hsn1)
    as (_ & Hlef & _).
  destruct Hres as [Hres|[-> Hlt]].
  2: { rewrite Ho. destruct Hsnf as [(Hwff & _) Hbf].
       do 3 (split; [done|]). cbn in Hlef. lia. }
  destruct o as [r|[|e]| |]; rewrite <- Hres in Hn1, Hn2, Hn3; try done.
  2: { rewrite Ho. exists sa. split; [exact (env_rel_env_steps _ _ Ha)|].
       by rewrite <- Hres. }
  destruct Ho as (sb & Hb' & ->).
  rewrite decide_True by (rewrite (cr_mu _ _ Hcall); cbn;
                          by rewrite (er_mu _ _ Ha)).
  destruct (snap_inv_env _ _ sf sb (env_rel_env_steps _ _ Hb') Hsnf)
    as (Hsnb & Hleb & _).
  assert (Htb : tctx sb = tctx sf) by apply Hb'.
  assert (HEb : epoch (tctx sb) = E).
  { rewrite Htb, (cr_epoch _ _ Hcall). by rewrite Ht1. }
  assert (Hsb : env_steps s sb)
    by (eapply env_steps_trans; [exact Hsf|exact (env_rel_env_steps _ _ Hb')]).
  destruct (validb (locked sb)) eqn:Hv.
  - apply canCommit_valid in Hv. destruct Hv as [Hvr _]. cbn in Hvr.
    rewrite HEb in Hvr.
    exists sb, (pendingWrites (tctx sb)). split; [done|]. split; [done|].
    split; [|done]. cbn [tctx unlocked committed with_global].
    cbn. rewrite (alone_write_agree (heap sa) (heap sb)).
    + rewrite <- Hres. unfold sets. by rewrite Htb.
    + rewrite <- Hres. cbn. intros c Hc. f_equal.
      destruct Hsnb as [(_ & _ & Hst) _].
      apply Hst. apply Hvr. by rewrite Htb.
  - destruct Hsnb as [(Hwfb & _ & _) Hbb].
    split; [done|]. split; [done|]. split; [done|].
    cbn. destruct (decide (E < epoch_ (global sb))) as [|Hnlt]; [lia|].
    exfalso. assert (validb (locked sb) = true) as Hv'; [|congruence].
    apply canCommit_valid. unfold valid. cbn. rewrite HEb.
    split; intros c; intros; specialize (Hwfb c); cbn in Hwfb; lia.
Qed.

(** The retry of [writeTx], seen as a whole. *)
Lemma writeTx_retry_serial {R} (f : Thunk R) (s : State) :
  ctx (tctx s) ≠ nullptr → isWrite (tctx s) = true →
  mu_ (global s) = Unlocked →
  wf_shared (shared s) → epoch_ (global s) + commits (sched s) < 2 ^ 64 →
  match writeTx_retry f s with
  | (Returned r, s2) =>
      ∃ sx ws, env_steps s sx ∧ sched s2 = sched sx ∧
        alone_write (heap sx) f (pendingReads (tctx s))
          (pendingWrites (tctx s))
        = (Returned r, (pendingReads (tctx s2), ws)) ∧
        pendingWrites (tctx s2) = ws ∧
        shared s2 = commit_shared (shared sx) ws
  | (Raised e, s2) =>
      ∃ sx, env_steps s sx ∧
        alone_write (heap sx) f (pendingReads (tctx s))
          (pendingWrites (tctx s))
        = (Raised e, sets s2)
  | _ => False
  end.
Proof.
  intros Hctx Hw Hmu Hwf Hb.
  pose proof (snap_inv_start s Hwf Hb) as Hsn0.
  destruct (writeTx_retry_spec f s Hctx Hw) as (sa & Ha & Hr).
  rewrite decide_True in Hr by done. cbv zeta in Hr.
  destruct Hr as (_ & o & sf & Hf & Hcall & ->).
  assert (Hsa : env_steps s sa).
  { eapply env_steps_trans; [|exact (env_rel_env_steps _ _ Ha)].
    by apply env_steps_same. }
  destruct (snap_inv_restart _ _ s sa Hsa Hsn0) as [Hsna _].
  set (E := epoch_ (global sa)) in *.
  set (s2 := with_tctx (with_epoch E (tctx sa)) (locked sa)) in *.
  assert (Hsn2 : snap_inv E (heap sa) s2) by by apply (snap_inv_same _ _ sa).
  assert (Ht2 : tctx s2 = with_epoch E (tctx s))
    by (unfold s2; cbn; by rewrite (er_tctx _ _ Ha)).
  assert (Hw2 : isWrite (tctx s2) = true) by by rewrite Ht2.
  assert (Hctx2 : ctx (tctx s2) ≠ nullptr) by by rewrite Ht2.
  destruct (call_write_snapshot E (heap sa) f s2 Hw2 Hctx2 Hsn2)
    as [_ Hres]; [by rewrite Ht2|].
  rewrite Hf in Hres. cbn [fst snd] in Hres. rewrite Ht2 in Hres.
  cbn [pendingReads pendingWrites with_epoch] in Hres.
  destruct (cr_locked _ _ Hcall) as [Hsh Hsc]; [done|].
  assert (He : epoch_ (global sf) = E).
  { change (epoch_ (global sf)) with (shared sf).2. by rewrite Hsh. }
  destruct (alone_write_not_internal (heap sa) f (pendingReads (tctx s))
              (pendingWrites (tctx s))) as (Hn1 & Hn2 & Hn3).
  destruct Hres as [Hres|[_ Hlt]]; [|lia].
  rewrite <- Hres in Hn1, Hn2, Hn3.
  destruct o as [r|e| |]; try done.
  - exists sa, (pendingWrites (tctx sf)). split; [done|].
    split; [exact Hsc|]. split; [by rewrite <- Hres|].
    split; [done|].
    change (shared (unlocked (committed sf)))
      with (commit_shared (shared sf) (pendingWrites (tctx sf))).
    by rewrite Hsh.
  - exists sa. split; [done|]. by rewrite <- Hres.
Qed.

Lemma env_run_no_commit (batches : list (list (gmap N Z))) sh :
  commits batches = 0 → env_run batches sh = sh.
Proof.
  unfold commits. intros H. rewrite env_run_concat.
  by destruct (concat batches).
Qed.

Lemma env_steps_commits s s' :
  env_steps s s' → wf_shared (shared s) →
  epoch_ (global s) + commits (sched s) < 2 ^ 64 →
  ∃ consumed, sched s = consumed ++ sched s' ∧
    shared s' = env_run consumed (shared s) ∧
    epoch_ (global s') = epoch_ (global s) + commits consumed.
Proof.
  intros (consumed & Hs & Hsh) Hwf Hb. exists consumed.
  split; [done|]. split; [done|].
  destruct (env_run_spec consumed (shared s)) as (He & _); [|done|].
  - rewrite Hs, commits_app in Hb. cbn. lia.
  - by rewrite <- Hsh in He.
Qed.

Lemma env_steps_calm s s' :
  env_steps s s' → commits (sched s) = 0 →
  shared s' = shared s ∧ commits (sched s') = 0.
Proof.
  intros (consumed & Hs & Hsh) Hc. rewrite Hs, commits_app in Hc.
  split; [|lia]. rewrite Hsh. apply env_run_no_commit. lia.
Qed.

(** [writeTx], seen as a whole: a [writeTx] that returns has run its thunk
    on its own against the cells as they stood at one point [sx] of the run,
    and committed the write set of that run on top of [sx]; the run starts
    from the sets found on entry when the first attempt commits, and from
    the sets the failed attempt left when the retry commits. *)
Lemma writeTx_serial_core {R} (f : Thunk R) (s : State) :
  ctx (tctx s) = nullptr → mu_ (global s) = Unlocked →
  wf_shared (shared s) → epoch_ (global s) + commits (sched s) < 2 ^ 64 →
  let s1 := (writeTx_attempt f (writeTx_enter s).2).2 in
  let from := if writeTx_retries f s then s1 else s in
  (writeTx_retries f s = true →
   env_steps s s1 ∧ epoch_ (global s) < epoch_ (global s1)) ∧
  match writeTx f s with
  | (Returned r, s') =>
      ∃ sx rs ws, env_steps s sx ∧ sched s' = sched sx ∧
        alone_write (heap sx) f (pendingReads (tctx from))
          (pendingWrites (tctx from))
        = (Returned r, (rs, ws)) ∧
        shared s' = commit_shared (shared sx) ws
  | (Raised e, s') =>
      ∃ sx, env_steps s sx ∧
        (alone_write (heap sx) f (pendingReads (tctx from))
           (pendingWrites (tctx from))).1 = Raised e
  | _ => False
  end.
Proof.
  intros Hctx Hmu Hwf Hb. cbv zeta.
  unfold writeTx, writeTx_retries.
  rewrite bind_unfold, writeTx_enter_spec, decide_True by done.
  cbn [fst snd]. set (s0 := with_tctx _ s).
  assert (Hctx0 : ctx (tctx s0) ≠ nullptr) by done.
  assert (Hw0 : isWrite (tctx s0) = true) by done.
  pose proof (writeTx_attempt_serial f s0 Hctx0 Hw0 Hmu Hwf Hb) as Hatt.
  destruct (writeTx_attempt_quiet f s0 Hctx0 Hw0) as (_ & _ & _ & Hnone).
  pose proof (local_rel_attempt f s0) as Hloc.
  rewrite bind_unfold.
  destruct (writeTx_attempt f s0) as [[[r|]|e| |] s1]; cbn [fst snd] in *;
    try done.
  - split; [done|].
    destruct Hatt as (sx & ws & Henv & Hsc & Hal & Hws & Hsh).
    exists sx, (pendingReads (tctx s1)), ws. by repeat split.
  - destruct Hatt as (Henv & Hwf1 & Hb1 & Hlt). split; [done|].
    destruct (local_rel_entered _ _ Hloc Hctx0 Hw0) as [Hctx1 Hw1].
    assert (Hmu1 : mu_ (global s1) = Unlocked)
      by by rewrite (Hnone eq_refl).
    pose proof (writeTx_retry_serial f s1 Hctx1 Hw1 Hmu1 Hwf1 Hb1) as Hret.
    rewrite bind_unfold.
    destruct (writeTx_retry f s1) as [[r|e| |] s2]; try done.
    + destruct Hret as (sx & ws & Henv2 & Hsc & Hal & Hws & Hsh).
      exists sx, (pendingReads (tctx s2)), ws.
      split; [by eapply (env_steps_trans s s1)|]. by repeat split.
    + destruct Hret as (sx & Henv2 & Hal). exists sx.
      split; [by eapply (env_steps_trans s s1)|]. by rewrite Hal.
  - split; [done|]. destruct Hatt as (sx & Henv & Hal). exists sx.
    split; [done|]. exact (f_equal fst Hal).
Qed.

Lemma wf_shared_heap (h : gmap N ValHelper) (e : N) :
  map_Forall (λ _ x, valEpoch_ x ≤ e) h → wf_shared (h, e).
Proof.
  intros Hall c. unfold cell. cbn. destruct (h !! c) as [x|] eqn:Hc; cbn.
  - exact (Hall c x Hc).
  - lia.
Qed.

Ltac wf_by_computation :=
  apply wf_shared_heap; apply (bool_decide_unpack _); vm_compute; exact I.

Lemma state0_wf : wf_shared (shared state0).
Proof. wf_by_computation. Qed.

Lemma idle_state_wf : wf_shared (shared idle_state).
Proof. wf_by_computation. Qed.

Lemma contended_state_wf : wf_shared (shared contended_state).
Proof. wf_by_computation. Qed.

Lemma bystander_state_wf : wf_shared (shared bystander_state).
Proof. wf_by_computation. Qed.

Lemma main_state_wf : wf_shared (shared main_state).
Proof. wf_by_computation. Qed.

(** ** Transactions against whole commits *)

(** X11: a read transaction that starts outside any transaction, with the
    mutex free, no commit in flight and room in the epoch counter, ends as
    its thunk ends when run on its own against the cells as they stood
    after some first part of the foreign commits that went by during the
    call: every value it was handed comes from that one moment.  When the
    [catch] block was taken, at least one foreign commit lies before that
    moment. *)
Theorem readTx_sees_one_snapshot {R} (f : Thunk R) (s : State) :
  ctx (tctx s) = nullptr → mu_ (global s) = Unlocked →
  (∀ c, valEpoch_ (cell (heap s) c) ≤ epoch_ (global s)) →
  epoch_ (global s) + commits (sched s) < 2 ^ 64 →
  ∃ consumed later,
    sched s = consumed ++ later ++ sched (readTx f s).2 ∧
    (readTx f s).1
    = alone_read (env_run consumed (heap s, epoch_ (global s))).1 f ∧
    (readTx_falls_back f s = true → 0 < commits consumed).
Proof.
  intros Hctx Hmu Hwf Hb.
  destruct (readTx_snapshot_core f s Hctx Hmu Hwf Hb)
    as (sx & Henv & Hres & Hfail & _ & later & Hlater).
  destruct (env_steps_commits _ _ Henv Hwf Hb) as (consumed & Hs & Hsh & He).
  exists consumed, later. split; [by rewrite <- Hlater|].
  split.
  - rewrite Hres. f_equal. change (heap sx) with (shared sx).1.
    by rewrite Hsh.
  - intros Hfb. specialize (Hfail Hfb). lia.
Qed.

Lemma readTx_sees_one_snapshot_witness :
  (ctx (tctx idle_state) = nullptr ∧ mu_ (global idle_state) = Unlocked ∧
   (∀ c, valEpoch_ (cell (heap idle_state) c) ≤ epoch_ (global idle_state)) ∧
   epoch_ (global idle_state) + commits (sched idle_state) < 2 ^ 64) ∧
  ∃ consumed later,
    sched idle_state
    = consumed ++ later ++ sched (readTx read_pair_thunk idle_state).2 ∧
    (readTx read_pair_thunk idle_state).1
    = alone_read
        (env_run consumed (heap idle_state, epoch_ (global idle_state))).1
        read_pair_thunk ∧
    (readTx_falls_back read_pair_thunk idle_state = true →
     0 < commits consumed).
Proof.
  assert (Hb : epoch_ (global idle_state) + commits (sched idle_state)
               < 2 ^ 64) by (vm_compute; reflexivity).
  split; [split; [reflexivity|split; [reflexivity|split;
    [exact idle_state_wf|exact Hb]]]|].
  exact (readTx_sees_one_snapshot read_pair_thunk idle_state
           eq_refl eq_refl idle_state_wf Hb).
Defined.

(** X12: a write transaction that commits on its first attempt has run its
    thunk as the thunk runs on its own against the cells as they stood at
    the commit, after some first part of the foreign commits, from the sets
    found on entry; what it leaves in the cells and the global epoch is that
    moment with the write set of that run committed on top. *)
Theorem writeTx_first_commit_is_atomic {R} (f : Thunk R) (s s' : State)
    (r : R) :
  ctx (tctx s) = nullptr → mu_ (global s) = Unlocked →
  (∀ c, valEpoch_ (cell (heap s) c) ≤ epoch_ (global s)) →
  epoch_ (global s) + commits (sched s) < 2 ^ 64 →
  writeTx_retries f s = false →
  writeTx f s = (Returned r, s') →
  ∃ consumed rs ws,
    sched s = consumed ++ sched s' ∧
    let sh := env_run consumed (heap s, epoch_ (global s)) in
    alone_write sh.1 f (pendingReads (tctx s)) (pendingWrites (tctx s))
    = (Returned r, (rs, ws)) ∧
    (heap s', epoch_ (global s')) = commit_shared sh ws.
Proof.
  intros Hctx Hmu Hwf Hb Hnr Hret.
  destruct (writeTx_serial_core f s Hctx Hmu Hwf Hb) as [_ Hcore].
  rewrite Hnr, Hret in Hcore.
  destruct Hcore as (sx & rs & ws & (consumed & Hs & Hsh) & Hsc & Hal & Hc).
  exists consumed, rs, ws. split; [by rewrite Hsc|]. cbv zeta.
  change (heap s, epoch_ (global s)) with (shared s). rewrite <- Hsh.
  split; [exact Hal|exact Hc].
Qed.

Lemma writeTx_first_commit_is_atomic_witness :
  let s' := (writeTx incr_thunk bystander_state).2 in
  (ctx (tctx bystander_state) = nullptr ∧
   mu_ (global bystander_state) = Unlocked ∧
   (∀ c, valEpoch_ (cell (heap bystander_state) c)
         ≤ epoch_ (global bystander_state)) ∧
   epoch_ (global bystander_state) + commits (sched bystander_state)
   < 2 ^ 64 ∧
   writeTx_retries incr_thunk bystander_state = false ∧
   writeTx incr_thunk bystander_state = (Returned (), s')) ∧
  ∃ consumed rs ws,
    sched bystander_state = consumed ++ sched s' ∧
    let sh := env_run consumed
                (heap bystander_state, epoch_ (global bystander_state)) in
    alone_write sh.1 incr_thunk (pendingReads (tctx bystander_state))
      (pendingWrites (tctx bystander_state))
    = (Returned (), (rs, ws)) ∧
    (heap s', epoch_ (global s')) = commit_shared sh ws.
Proof.
  cbv zeta.
  assert (Hb : epoch_ (global bystander_state)
               + commits (sched bystander_state) < 2 ^ 64)
    by (vm_compute; reflexivity).
  assert (Hnr : writeTx_retries incr_thunk bystander_state = false)
    by (vm_compute; reflexivity).
  assert (Hret : writeTx incr_thunk bystander_state
                 = (Returned (), (writeTx incr_thunk bystander_state).2))
    by (vm_compute; reflexivity).
  split; [split; [reflexivity|split; [reflexivity|split;
    [exact bystander_state_wf|split; [exact Hb|split;
      [exact Hnr|exact Hret]]]]]|].
  exact (writeTx_first_commit_is_atomic incr_thunk bystander_state _ _
           eq_refl eq_refl bystander_state_wf Hb Hnr Hret).
Defined.

(** X13: a write transaction that commits through its retry has run its
    thunk as the thunk runs on its own against the cells as they stood under
    the exclusive lock, but from the read set and the write set that the
    failed first attempt left behind; it commits the write set of that run
    on top. *)
Theorem writeTx_retry_runs_from_left_sets {R} (f : Thunk R) (s s' : State)
    (r : R) :
  ctx (tctx s) = nullptr → mu_ (global s) = Unlocked →
  (∀ c, valEpoch_ (cell (heap s) c) ≤ epoch_ (global s)) →
  epoch_ (global s) + commits (sched s) < 2 ^ 64 →
  writeTx_retries f s = true →
  writeTx f s = (Returned r, s') →
  let s1 := (writeTx_attempt f (writeTx_enter s).2).2 in
  ∃ consumed rs ws,
    sched s = consumed ++ sched s' ∧
    let sh := env_run consumed (heap s, epoch_ (global s)) in
    alone_write sh.1 f (pendingReads (tctx s1)) (pendingWrites (tctx s1))
    = (Returned r, (rs, ws)) ∧
    (heap s', epoch_ (global s')) = commit_shared sh ws.
Proof.
  intros Hctx Hmu Hwf Hb Hnr Hret.
  destruct (writeTx_serial_core f s Hctx Hmu Hwf Hb) as [_ Hcore].
  rewrite Hnr, Hret in Hcore.
  destruct Hcore as (sx & rs & ws & (consumed & Hs & Hsh) & Hsc & Hal & Hc).
  exists consumed, rs, ws. split; [by rewrite Hsc|]. cbv zeta.
  change (heap s, epoch_ (global s)) with (shared s). rewrite <- Hsh.
  split; [exact Hal|exact Hc].
Qed.

Lemma writeTx_retry_runs_from_left_sets_witness :
  let s' := (writeTx incr_thunk contended_state).2 in
  let s1 := (writeTx_attempt incr_thunk (writeTx_enter contended_state).2).2 in
  (ctx (tctx contended_state) = nullptr ∧
   mu_ (global contended_state) = Unlocked ∧
   (∀ c, valEpoch_ (cell (heap contended_state) c)
         ≤ epoch_ (global contended_state)) ∧
   epoch_ (global contended_state) + commits (sched contended_state)
   < 2 ^ 64 ∧
   writeTx_retries incr_thunk contended_state = true ∧
   writeTx incr_thunk contended_state = (Returned (), s')) ∧
  ∃ consumed rs ws,
    sched contended_state = consumed ++ sched s' ∧
    let sh := env_run consumed
                (heap contended_state, epoch_ (global contended_state)) in
    alone_write sh.1 incr_thunk (pendingReads (tctx s1))
      (pendingWrites (tctx s1))
    = (Returned (), (rs, ws)) ∧
    (heap s', epoch_ (global s')) = commit_shared sh ws.
Proof.
  cbv zeta.
  assert (Hb : epoch_ (global contended_state)
               + commits (sched contended_state) < 2 ^ 64)
    by (vm_compute; reflexivity).
  assert (Hnr : writeTx_retries incr_thunk contended_state = true)
    by (vm_compute; reflexivity).
  assert (Hret : writeTx incr_thunk contended_state
                 = (Returned (), (writeTx incr_thunk contended_state).2))
    by (vm_compute; reflexivity).
  split; [split; [reflexivity|split; [reflexivity|split;
    [exact contended_state_wf|split; [exact Hb|split;
      [exact Hnr|exact Hret]]]]]|].
  exact (writeTx_retry_runs_from_left_sets incr_thunk contended_state _ _
           eq_refl eq_refl contended_state_wf Hb Hnr Hret).
Defined.

(** X14: from outside any transaction, with the mutex free, no commit in
    flight and room in the epoch counter, [TxFailed] never leaves a driver
    and no driver blocks: [writeTx] returns or lets a user exception
    through, and [readTx] ends neither by [TxFailed] nor blocked. *)
Theorem abort_stays_internal {R} (f : Thunk R) (s : State) :
  ctx (tctx s) = nullptr → mu_ (global s) = Unlocked →
  (∀ c, valEpoch_ (cell (heap s) c) ≤ epoch_ (global s)) →
  epoch_ (global s) + commits (sched s) < 2 ^ 64 →
  ((∃ r, (writeTx f s).1 = Returned r) ∨
   (∃ e, (writeTx f s).1 = Raised (UserExn e))) ∧
  (readTx f s).1 ≠ Raised TxFailed ∧ (readTx f s).1 ≠ Blocked.
Proof.
  intros Hctx Hmu Hwf Hb. split.
  - destruct (writeTx_serial_core f s Hctx Hmu Hwf Hb) as [_ Hcore].
    destruct (writeTx f s) as [[r|e| |] s']; try done.
    + left. by exists r.
    + right. destruct Hcore as (sx & _ & Hal).
      destruct (alone_write_not_internal (heap sx) f
        (pendingReads (tctx (if writeTx_retries f s
           then (writeTx_attempt f (writeTx_enter s).2).2 else s)))
        (pendingWrites (tctx (if writeTx_retries f s
           then (writeTx_attempt f (writeTx_enter s).2).2 else s))))
        as (Hn & _).
      rewrite Hal in Hn. cbn. destruct e as [|e]; [done|]. by exists e.
  - destruct (readTx_snapshot_core f s Hctx Hmu Hwf Hb)
      as (sx & _ & -> & _).
    apply alone_read_not_internal.
Qed.

Lemma abort_stays_internal_witness :
  (ctx (tctx contended_state) = nullptr ∧
   mu_ (global contended_state) = Unlocked ∧
   (∀ c, valEpoch_ (cell (heap contended_state) c)
         ≤ epoch_ (global contended_state)) ∧
   epoch_ (global contended_state) + commits (sched contended_state)
   < 2 ^ 64) ∧
  ((∃ r, (writeTx incr_thunk contended_state).1 = Returned r) ∨
   (∃ e, (writeTx incr_thunk contended_state).1 = Raised (UserExn e))) ∧
  (readTx incr_thunk contended_state).1 ≠ Raised TxFailed ∧
  (readTx incr_thunk contended_state).1 ≠ Blocked.
Proof.
  assert (Hb : epoch_ (global contended_state)
               + commits (sched contended_state) < 2 ^ 64)
    by (vm_compute; reflexivity).
  split; [split; [reflexivity|split; [reflexivity|split;
    [exact contended_state_wf|exact Hb]]]|].
  exact (abort_stays_internal incr_thunk contended_state
           eq_refl eq_refl contended_state_wf Hb).
Defined.

Lemma writeTx_retry_sched_suffix {R} (f : Thunk R) (s : State) :
  writeTx_retries f s = true →
  ∃ later,
    sched (writeTx_attempt f (writeTx_enter s).2).2
    = later ++ sched (writeTx f s).2.
Proof.
  unfold writeTx_retries, writeTx.
  rewrite bind_unfold, writeTx_enter_spec.
  destruct (decide (ctx (tctx s) = nullptr)) as [Hctx|Hctx]; [|done].
  cbn [fst snd].
  set (s0 := with_tctx (with_isWrite true (with_ctx this (tctx s))) s).
  assert (Hctx0 : ctx (tctx s0) ≠ nullptr) by done.
  assert (Hw0 : isWrite (tctx s0) = true) by done.
  pose proof (local_rel_attempt f s0) as Hloc.
  rewrite bind_unfold.
  destruct (writeTx_attempt f s0) as [[[r0|]|e0| |] s1]; try done.
  intros _. cbn [fst snd] in *.
  destruct (local_rel_entered _ _ Hloc Hctx0 Hw0) as [Hctx1 Hw1].
  pose proof (writeTx_retry_shared f s1 Hctx1 Hw1) as Hsh.
  rewrite bind_unfold.
  destruct (writeTx_retry f s1) as [[r|e| |] s2]; cbn in Hsh |- *.
  - destruct Hsh as (later & ws & Hs & _). by exists later.
  - destruct Hsh as (later & Hs & _). by exists later.
  - destruct Hsh as (later & Hs & _). by exists later.
  - destruct Hsh as (later & Hs & _). by exists later.
Qed.

(** X15: a transaction fails its first run only if another thread has
    committed since the transaction began: when [writeTx] takes its retry
    or [readTx] its [catch] block, at least one foreign commit is among
    those that went by during the call, that is, among those gone from the
    schedule when the driver ends. *)
Theorem failure_needs_foreign_commit {R} (f : Thunk R) (s : State) :
  ctx (tctx s) = nullptr → mu_ (global s) = Unlocked →
  (∀ c, valEpoch_ (cell (heap s) c) ≤ epoch_ (global s)) →
  epoch_ (global s) + commits (sched s) < 2 ^ 64 →
  (writeTx_retries f s = true →
   ∃ consumed,
     sched s = consumed ++ sched (writeTx f s).2 ∧ 0 < commits consumed) ∧
  (readTx_falls_back f s = true →
   ∃ consumed,
     sched s = consumed ++ sched (readTx f s).2 ∧ 0 < commits consumed).
Proof.
  intros Hctx Hmu Hwf Hb. split.
  - intros Hr.
    destruct (writeTx_serial_core f s Hctx Hmu Hwf Hb) as [Hfail _].
    destruct (Hfail Hr) as [Henv Hlt].
    destruct (env_steps_commits _ _ Henv Hwf Hb) as (consumed & Hs & _ & He).
    destruct (writeTx_retry_sched_suffix f s Hr) as (later & Hlater).
    exists (consumed ++ later).
    split; [by rewrite <- app_assoc, <- Hlater|].
    rewrite commits_app. lia.
  - intros Hr.
    destruct (readTx_snapshot_core f s Hctx Hmu Hwf Hb)
      as (sx & Henv & _ & Hfail & _ & later & Hlater).
    specialize (Hfail Hr).
    destruct (env_steps_commits _ _ Henv Hwf Hb) as (consumed & Hs & _ & He).
    exists (consumed ++ later).
    split; [by rewrite <- app_assoc, <- Hlater|].
    rewrite commits_app. lia.
Qed.

Lemma failure_needs_foreign_commit_witness :
  (ctx (tctx contended_state) = nullptr ∧
   mu_ (global contended_state) = Unlocked ∧
   (∀ c, valEpoch_ (cell (heap contended_state) c)
         ≤ epoch_ (global contended_state)) ∧
   epoch_ (global contended_state) + commits (sched contended_state)
   < 2 ^ 64) ∧
  (writeTx_retries incr_thunk contended_state = true →
   ∃ consumed,
     sched contended_state
     = consumed ++ sched (writeTx incr_thunk contended_state).2 ∧
     0 < commits consumed) ∧
  (readTx_falls_back incr_thunk contended_state = true →
   ∃ consumed,
     sched contended_state
     = consumed ++ sched (readTx incr_thunk contended_state).2 ∧
     0 < commits consumed).
Proof.
  assert (Hb : epoch_ (global contended_state)
               + commits (sched contended_state) < 2 ^ 64)
    by (vm_compute; reflexivity).
  split; [split; [reflexivity|split; [reflexivity|split;
    [exact contended_state_wf|exact Hb]]]|].
  exact (failure_needs_foreign_commit incr_thunk contended_state
           eq_refl eq_refl contended_state_wf Hb).
Defined.

(** ** Transactions with no other thread committing *)

Lemma writeTx_sched_suffix {R} (f : Thunk R) (s : State) :
  ∃ consumed, sched s = consumed ++ sched (writeTx f s).2.
Proof.
  pose proof (writeTx_shared f s) as Hsh.
  destruct (writeTx f s) as [[r|e| |] s']; cbn in *.
  - destruct Hsh as (consumed & ws & Hs & _). by exists consumed.
  - destruct Hsh as (consumed & Hs & _). by exists consumed.
  - destruct Hsh as (consumed & Hs & _). by exists consumed.
  - destruct Hsh as (consumed & Hs & _). by exists consumed.
Qed.

(** [writeTx] with no foreign commit scheduled. *)
Lemma writeTx_calm_core {R} (f : Thunk R) (s : State) :
  ctx (tctx s) = nullptr → mu_ (global s) = Unlocked →
  wf_shared (shared s) → epoch_ (global s) < 2 ^ 64 →
  commits (sched s) = 0 →
  let alone := alone_write (heap s) f (pendingReads (tctx s))
                 (pendingWrites (tctx s)) in
  writeTx_retries f s = false ∧
  (writeTx f s).1 = alone.1 ∧
  commits (sched (writeTx f s).2) = 0 ∧
  (∀ r, (writeTx f s).1 = Returned r →
        shared (writeTx f s).2 = commit_shared (shared s) alone.2.2).
Proof.
  intros Hctx Hmu Hwf Hb Hc. cbv zeta.
  assert (Hb' : epoch_ (global s) + commits (sched s) < 2 ^ 64)
    by (rewrite Hc; lia).
  destruct (writeTx_serial_core f s Hctx Hmu Hwf Hb') as [Hfail Hcore].
  assert (Hnr : writeTx_retries f s = false).
  { destruct (writeTx_retries f s); [|done].
    destruct (Hfail eq_refl) as [Henv Hlt].
    destruct (env_steps_calm _ _ Henv Hc) as [Hsh _].
    change (epoch_ (global (writeTx_attempt f (writeTx_enter s).2).2))
      with (shared (writeTx_attempt f (writeTx_enter s).2).2).2 in Hlt.
    rewrite Hsh in Hlt. cbn in Hlt. lia. }
  split; [done|]. rewrite Hnr in Hcore.
  assert (Hc' : commits (sched (writeTx f s).2) = 0).
  { destruct (writeTx_sched_suffix f s) as (consumed & Hs).
    rewrite Hs, commits_app in Hc. lia. }
  destruct (writeTx f s) as [[r|e| |] s']; try done; cbn [fst snd] in *.
  - destruct Hcore as (sx & rs & ws & Henv & Hsc & Hal & Hsh).
    destruct (env_steps_calm _ _ Henv Hc) as [Hshx Hcx].
    change (heap sx) with (shared sx).1 in Hal. rewrite Hshx in Hal.
    cbn [fst shared] in Hal. rewrite Hal. cbn [fst snd].
    split; [done|]. split; [done|].
    intros _ _. by rewrite Hsh, Hshx.
  - destruct Hcore as (sx & Henv & Hal).
    destruct (env_steps_calm _ _ Henv Hc) as [Hshx Hcx].
    change (heap sx) with (shared sx).1 in Hal. rewrite Hshx in Hal.
    cbn [fst shared] in Hal. rewrite Hal. by repeat split.
Qed.

(** [readTx] with no foreign commit scheduled. *)
Lemma readTx_calm_core {R} (f : Thunk R) (s : State) :
  ctx (tctx s) = nullptr → mu_ (global s) = Unlocked →
  wf_shared (shared s) → epoch_ (global s) < 2 ^ 64 →
  commits (sched s) = 0 →
  readTx_falls_back f s = false ∧
  (readTx f s).1 = alone_read (heap s) f.
Proof.
  intros Hctx Hmu Hwf Hb Hc.
  assert (Hb' : epoch_ (global s) + commits (sched s) < 2 ^ 64)
    by (rewrite Hc; lia).
  destruct (readTx_snapshot_core f s Hctx Hmu Hwf Hb')
    as (sx & Henv & Hres & Hfail & _).
  destruct (env_steps_calm _ _ Henv Hc) as [Hshx _].
  split.
  - destruct (readTx_falls_back f s); [|done].
    specialize (Hfail eq_refl).
    change (epoch_ (global sx)) with (shared sx).2 in Hfail.
    rewrite Hshx in Hfail. cbn in Hfail. lia.
  - rewrite Hres. change (heap sx) with (shared sx).1. by rewrite Hshx.
Qed.

(** X16: with no foreign commit on its way, a transaction is its thunk run
    on its own against the cells it finds: [readTx] ends as that run ends
    and never takes its [catch] block; [writeTx] ends as that run ends,
    never takes its retry, and when it returns it leaves the cells and the
    global epoch it found with the write set of that run committed on
    top. *)
Theorem tx_alone_is_thunk_alone {R} (f : Thunk R) (s : State) :
  ctx (tctx s) = nullptr → mu_ (global s) = Unlocked →
  (∀ c, valEpoch_ (cell (heap s) c) ≤ epoch_ (global s)) →
  epoch_ (global s) < 2 ^ 64 →
  commits (sched s) = 0 →
  (readTx_falls_back f s = false ∧
   (readTx f s).1 = alone_read (heap s) f) ∧
  (let alone := alone_write (heap s) f (pendingReads (tctx s))
                  (pendingWrites (tctx s)) in
   writeTx_retries f s = false ∧
   (writeTx f s).1 = alone.1 ∧
   (∀ r, (writeTx f s).1 = Returned r →
      (heap (writeTx f s).2, epoch_ (global (writeTx f s).2))
      = commit_shared (heap s, epoch_ (global s)) alone.2.2)).
Proof.
  intros Hctx Hmu Hwf Hb Hc. split.
  - by apply readTx_calm_core.
  - destruct (writeTx_calm_core f s Hctx Hmu Hwf Hb Hc) as (H1 & H2 & _ & H3).
    cbv zeta. by repeat split.
Qed.

Lemma tx_alone_is_thunk_alone_witness :
  (ctx (tctx state0) = nullptr ∧ mu_ (global state0) = Unlocked ∧
   (∀ c, valEpoch_ (cell (heap state0) c) ≤ epoch_ (global state0)) ∧
   epoch_ (global state0) < 2 ^ 64 ∧
   commits (sched state0) = 0) ∧
  (readTx_falls_back incr_thunk state0 = false ∧
   (readTx incr_thunk state0).1 = alone_read (heap state0) incr_thunk) ∧
  (let alone := alone_write (heap state0) incr_thunk
                  (pendingReads (tctx state0))
                  (pendingWrites (tctx state0)) in
   writeTx_retries incr_thunk state0 = false ∧
   (writeTx incr_thunk state0).1 = alone.1 ∧
   (∀ r, (writeTx incr_thunk state0).1 = Returned r →
      (heap (writeTx incr_thunk state0).2,
       epoch_ (global (writeTx incr_thunk state0).2))
      = commit_shared (heap state0, epoch_ (global state0)) alone.2.2)).
Proof.
  assert (Hb : epoch_ (global state0) < 2 ^ 64) by (vm_compute; reflexivity).
  split; [split; [reflexivity|split; [reflexivity|split;
    [exact state0_wf|split; [exact Hb|reflexivity]]]]|].
  exact (tx_alone_is_thunk_alone incr_thunk state0
           eq_refl eq_refl state0_wf Hb eq_refl).
Defined.

(** X17: what a write transaction stores, the next read transaction
    reads: with no foreign commit on its way, [write_tx { c = v; }] on a
    cell without a pending write returns, and a [read_tx { c.get(); }]
    that follows returns [v]. *)
Theorem write_then_read (c : addr) (v : Z) (s : State) :
  ctx (tctx s) = nullptr → mu_ (global s) = Unlocked →
  (∀ c, valEpoch_ (cell (heap s) c) ≤ epoch_ (global s)) →
  epoch_ (global s) + 1 < 2 ^ 64 →
  commits (sched s) = 0 →
  pendingWrites (tctx s) !! c = None →
  (writeTx (Put c v (Done ())) s).1 = Returned () ∧
  (readTx (Get c (λ a, Done a)) (writeTx (Put c v (Done ())) s).2).1
  = Returned v.
Proof.
  intros Hctx Hmu Hwf Hb Hc Hnone.
  assert (Hb0 : epoch_ (global s) < 2 ^ 64) by lia.
  destruct (writeTx_calm_core (Put c v (Done ())) s Hctx Hmu Hwf Hb0 Hc)
    as (_ & Hout & Hc1 & Hsh).
  cbn in Hout. split; [done|].
  specialize (Hsh () Hout). cbn [alone_write snd] in Hsh.
  pose proof (surjective_pairing (writeTx (Put c v (Done ())) s)) as Hpair.
  rewrite Hout in Hpair.
  destruct (writeTx_returned_clean _ _ _ _ Hpair) as (Hctx1 & _ & _).
  destruct (writeTx_returned_mu _ _ _ _ Hpair) as [_ Hmu1].
  set (s1 := (writeTx (Put c v (Done ())) s).2) in *.
  assert (Hwf1 : wf_shared (shared s1))
    by (rewrite Hsh; by apply commit_shared_wf).
  assert (He1 : epoch_ (global s1) = epoch_ (global s) + 1).
  { change (epoch_ (global s1)) with (shared s1).2. rewrite Hsh.
    by apply commit_shared_epoch. }
  destruct (readTx_calm_core (Get c (λ a, Done a)) s1 Hctx1 Hmu1 Hwf1)
    as [_ ->]; [lia|done|].
  cbn. f_equal. change (heap s1) with (shared s1).1.
  rewrite Hsh, cell_commit_shared, emplace_lookup, Hnone.
  by rewrite decide_True.
Qed.

Lemma write_then_read_witness :
  (ctx (tctx state0) = nullptr ∧ mu_ (global state0) = Unlocked ∧
   (∀ c, valEpoch_ (cell (heap state0) c) ≤ epoch_ (global state0)) ∧
   epoch_ (global state0) + 1 < 2 ^ 64 ∧
   commits (sched state0) = 0 ∧
   pendingWrites (tctx state0) !! 1 = None) ∧
  (writeTx (Put 1 7 (Done ())) state0).1 = Returned () ∧
  (readTx (Get 1 (λ a, Done a)) (writeTx (Put 1 7 (Done ())) state0).2).1
  = Returned 7%Z.
Proof.
  assert (Hb : epoch_ (global state0) + 1 < 2 ^ 64)
    by (vm_compute; reflexivity).
  split; [split; [reflexivity|split; [reflexivity|split;
    [exact state0_wf|split; [exact Hb|split; reflexivity]]]]|].
  exact (write_then_read 1 7 state0 eq_refl eq_refl state0_wf Hb
           eq_refl eq_refl).
Defined.

(** ** main.cpp *)

Lemma commit_shared_alike x y sh ws :
  writes_alike x y ws →
  val_ (cell sh.1 x) = val_ (cell sh.1 y) →
  val_ (cell (commit_shared sh ws).1 x) = val_ (cell (commit_shared sh ws).1 y).
Proof.
  unfold writes_alike. intros Hws Hxy. rewrite !cell_commit_shared, Hws.
  by destruct (ws !! y).
Qed.

Lemma env_run_alike x y (batches : list (list (gmap N Z))) sh :
  Forall (Forall (writes_alike x y)) batches →
  val_ (cell sh.1 x) = val_ (cell sh.1 y) →
  val_ (cell (env_run batches sh).1 x) = val_ (cell (env_run batches sh).1 y).
Proof.
  intros Hall. rewrite env_run_concat.
  assert (Hl : Forall (writes_alike x y) (concat batches)).
  { induction Hall; cbn; [done|]. by apply Forall_app. }
  clear Hall. revert sh.
  induction Hl as [|ws l Hws _ IH]; intros sh Hxy; cbn; [done|].
  apply IH. by apply commit_shared_alike.
Qed.

(** X18: the reader of main.cpp never sees [x] and [y] differ: if the two
    cells hold the same value when the read transaction starts and every
    foreign commit stores the same value to both, as the writer of main.cpp
    does, then the condition of the reader's [assert(x == y)] is true,
    wherever the commits fall between the reader's loads. *)
Theorem main_reader_assert_holds (x y : addr) (s : State) :
  ctx (tctx s) = nullptr → mu_ (global s) = Unlocked →
  (∀ c, valEpoch_ (cell (heap s) c) ≤ epoch_ (global s)) →
  epoch_ (global s) + commits (sched s) < 2 ^ 64 →
  val_ (cell (heap s) x) = val_ (cell (heap s) y) →
  Forall (Forall (writes_alike x y)) (sched s) →
  (readTx (main_reader x y) s).1 = Returned true.
Proof.
  intros Hctx Hmu Hwf Hb Hxy Hall.
  destruct (readTx_snapshot_core (main_reader x y) s Hctx Hmu Hwf Hb)
    as (sx & (consumed & Hs & Hsh) & -> & _).
  cbn. f_equal. apply bool_decide_eq_true_2.
  change (heap sx) with (shared sx).1. rewrite Hsh.
  apply env_run_alike; [|done].
  rewrite Hs in Hall. by apply Forall_app in Hall as [Hall _].
Qed.

Lemma main_reader_assert_holds_witness :
  (ctx (tctx main_state) = nullptr ∧ mu_ (global main_state) = Unlocked ∧
   (∀ c, valEpoch_ (cell (heap main_state) c) ≤ epoch_ (global main_state)) ∧
   epoch_ (global main_state) + commits (sched main_state) < 2 ^ 64 ∧
   val_ (cell (heap main_state) 1) = val_ (cell (heap main_state) 2) ∧
   Forall (Forall (writes_alike 1 2)) (sched main_state)) ∧
  (readTx (main_reader 1 2) main_state).1 = Returned true.
Proof.
  assert (Hb : epoch_ (global main_state) + commits (sched main_state)
               < 2 ^ 64) by (vm_compute; reflexivity).
  assert (Hall : Forall (Forall (writes_alike 1 2)) (sched main_state)).
  { repeat first [apply Forall_cons; split | apply Forall_nil];
      reflexivity. }
  split; [split; [reflexivity|split; [reflexivity|split;
    [exact main_state_wf|split; [exact Hb|split;
      [reflexivity|exact Hall]]]]]|].
  exact (main_reader_assert_holds 1 2 main_state eq_refl eq_refl
           main_state_wf Hb eq_refl Hall).
Defined.

(** X19: the writer of main.cpp, with no other thread committing: iteration
    [i] returns on its first attempt and leaves [x] and [y] both holding
    [i] with one and the same new version tag, every other cell as it was,
    and the global epoch at that tag. *)
Theorem main_writer_commits_pair (x y : addr) (i : Z) (s : State) :
  ctx (tctx s) = nullptr → mu_ (global s) = Unlocked →
  (∀ c, valEpoch_ (cell (heap s) c) ≤ epoch_ (global s)) →
  epoch_ (global s) < 2 ^ 64 →
  commits (sched s) = 0 →
  pendingWrites (tctx s) = ∅ →
  let s' := (writeTx (main_writer x y i) s).2 in
  (writeTx (main_writer x y i) s).1 = Returned () ∧
  writeTx_retries (main_writer x y i) s = false ∧
  epoch_ (global s') = u64 (epoch_ (global s) + 1) ∧
  cell (heap s') x = mkVal i (epoch_ (global s')) ∧
  cell (heap s') y = mkVal i (epoch_ (global s')) ∧
  ∀ c, c ≠ x → c ≠ y → cell (heap s') c = cell (heap s) c.
Proof.
  intros Hctx Hmu Hwf Hb Hc Hempty. cbv zeta.
  destruct (writeTx_calm_core (main_writer x y i) s Hctx Hmu Hwf Hb Hc)
    as (Hnr & Hout & _ & Hsh).
  cbn in Hout. split; [done|]. split; [done|].
  specialize (Hsh () Hout). cbn [main_writer alone_write snd] in Hsh.
  rewrite Hempty in Hsh.
  set (s' := (writeTx (main_writer x y i) s).2) in *.
  assert (He : epoch_ (global s') = u64 (epoch_ (global s) + 1)).
  { change (epoch_ (global s')) with (shared s').2. by rewrite Hsh. }
  split; [done|]. rewrite He.
  change (heap s') with (shared s').1. rewrite Hsh.
  split; [|split; [|intros c Hx Hy]];
    rewrite cell_commit_shared, !emplace_lookup, lookup_empty.
  - by rewrite decide_True.
  - destruct (decide (x = y)); [done|]. by rewrite decide_True.
  - by rewrite !decide_False.
Qed.

Lemma main_writer_commits_pair_witness :
  (ctx (tctx state0) = nullptr ∧ mu_ (global state0) = Unlocked ∧
   (∀ c, valEpoch_ (cell (heap state0) c) ≤ epoch_ (global state0)) ∧
   epoch_ (global state0) < 2 ^ 64 ∧
   commits (sched state0) = 0 ∧
   pendingWrites (tctx state0) = ∅) ∧
  let s' := (writeTx (main_writer 1 2 5) state0).2 in
  (writeTx (main_writer 1 2 5) state0).1 = Returned () ∧
  writeTx_retries (main_writer 1 2 5) state0 = false ∧
  epoch_ (global s') = u64 (epoch_ (global state0) + 1) ∧
  cell (heap s') 1 = mkVal 5 (epoch_ (global s')) ∧
  cell (heap s') 2 = mkVal 5 (epoch_ (global s')) ∧
  ∀ c, c ≠ 1 → c ≠ 2 → cell (heap s') c = cell (heap state0) c.
Proof.
  assert (Hb : epoch_ (global state0) < 2 ^ 64) by (vm_compute; reflexivity).
  split; [split; [reflexivity|split; [reflexivity|split;
    [exact state0_wf|split; [exact Hb|split; reflexivity]]]]|].
  exact (main_writer_commits_pair 1 2 5 state0 eq_refl eq_refl state0_wf Hb
           eq_refl eq_refl).
Defined.
